(** * poc-go-music: the [dsp] signal algebra, its sampler and its PCM encoder

    A shallow embedding of [pkg/dsp/signal.go].

    - [time.Duration] is Go's [int64] count of nanoseconds: a [Z] together
      with the two's complement wrap-around of [+] and the truncated
      remainder [%], which panics on a zero divisor.
    - [float64] is the IEEE-754 binary64 format: Rocq's primitive [float]
      (round to nearest even, like Go).  All NaNs are one value there;
      the encoder, which writes the bits of a sample, works on the 64-bit
      words in which the samples are stored ([bits64]).
    - A [Signal] is the [At] method of the Go interface: a function from a
      time offset to an amplitude which may panic, because the closure
      built by [Sequence] can.
    - [Sample] loops on a [float64] counter, so the loop gets fuel: [None]
      means the fuel ran out before the loop condition turned false.

    [Sine] calls [math.Sin] and the notes of the [music] package call
    [math.Pow]; they are left out. *)

From Stdlib Require Import ZArith List Bool Lia String Floats.
Import ListNotations.
Open Scope Z_scope.

(** ** Panics *)

Inductive result (A : Type) : Type :=
| Ok (a : A)
| Panic (msg : string).
Arguments Ok {A} a.
Arguments Panic {A} msg.

Definition bind {A B : Type} (r : result A) (k : A -> result B) : result B :=
  match r with
  | Ok a => k a
  | Panic msg => Panic msg
  end.

Notation "x <- r ;; k" := (bind r (fun x => k))
  (at level 61, r at next level, right associativity).

(** The message of the Go runtime for [x % 0] on integers. *)
Definition divide_error : string := "runtime error: integer divide by zero".

(** ** [int64] and [time.Duration] *)

Module Int64.
Definition min_int : Z := - 2 ^ 63.
Definition max_int : Z := 2 ^ 63 - 1.

Definition in_range (z : Z) : Prop := min_int <= z <= max_int.

(** Two's complement wrap-around of an exact result. *)
Definition wrap (z : Z) : Z := (z + 2 ^ 63) mod 2 ^ 64 - 2 ^ 63.

Definition add (a b : Z) : Z := wrap (a + b).

(** [a % b]: the remainder has the sign of [a]; a zero [b] panics. *)
Definition rem (a b : Z) : result Z :=
  if b =? 0 then Panic divide_error else Ok (Z.rem a b).
End Int64.

Definition Duration : Type := Z.

(** [time.Second], in nanoseconds. *)
Definition Second : Duration := 1000000000.

(** ** [float64] *)

Definition float64 : Type := float.

(** [float64(n)] for an integer [n]: the nearest binary64 value. *)
Definition float64_of_int (n : Z) : float64 :=
  SF2Prim (binary_normalize prec emax n 0 false).

(** [time.Duration(f)]: truncation toward zero.  Go leaves the result
    open when [f] does not fit (or is a NaN); on amd64 the conversion
    instruction then yields the smallest [int64], which is what is
    modelled here. *)
Definition Duration_of_float64 (f : float64) : Duration :=
  match Prim2SF f with
  | S754_zero _ => 0
  | S754_finite s m e =>
      let q := Z.shiftl (Z.pos m) e in
      let v := if s then - q else q in
      if (Int64.min_int <=? v) && (v <=? Int64.max_int) then v
      else Int64.min_int
  | S754_infinity _ | S754_nan => Int64.min_int
  end.

(** ** Signals *)

(** [type Signal interface { At(x time.Duration) (y float64) }]; a
    [SignalFunc] is its own [At]. *)
Definition Signal : Type := Duration -> result float64.

Definition At (s : Signal) (x : Duration) : result float64 := s x.

Definition Constant (v : float64) : Signal := fun _ => Ok v.
Arguments Constant v%_float.

(** The loop of [Combine]: [y += s.At(x)] over the signals, in order. *)
Fixpoint Combine_sum (signals : list Signal) (x : Duration) (y : float64)
  : result float64 :=
  match signals with
  | [] => Ok y
  | s :: rest => v <- At s x ;; Combine_sum rest x (y + v)%float
  end.

Definition Combine (signals : list Signal) : Signal := fun x =>
  y <- Combine_sum signals x 0%float ;;
  Ok (y / float64_of_int (Z.of_nat (List.length signals)))%float.

(** The struct embeds a [Signal] and a [time.Duration]; the two fields
    are named after them. *)
Record FiniteSignal : Type := mkFiniteSignal {
  fsSignal : Signal;
  fsDuration : Duration
}.

Definition F (d : Duration) (s : Signal) : FiniteSignal := mkFiniteSignal s d.

Definition Blank (d : Duration) : FiniteSignal :=
  mkFiniteSignal (Constant 0%float) d.

(** The first loop of [Sequence]: [totalDuration += s.Duration]. *)
Definition totalDuration (signals : list FiniteSignal) : Duration :=
  fold_left (fun acc s => Int64.add acc (fsDuration s)) signals 0.

(** The exact sum of the durations, without wrap-around. *)
Definition sum_durations (signals : list FiniteSignal) : Z :=
  fold_right (fun s acc => fsDuration s + acc) 0 signals.

(** The loop inside the closure of [Sequence], entered with the running
    offset [i]; falling out of it reaches [panic("unreachable")]. *)
Fixpoint Sequence_walk (signals : list FiniteSignal) (x i : Duration)
  : result float64 :=
  match signals with
  | [] => Panic "unreachable"
  | s :: rest =>
      if (i <=? x) && (x <? Int64.add i (fsDuration s))
      then At (fsSignal s) x
      else Sequence_walk rest x (Int64.add i (fsDuration s))
  end.

Definition Sequence (signals : list FiniteSignal) : Signal := fun x =>
  x' <- Int64.rem x (totalDuration signals) ;;
  Sequence_walk signals x' 0.

Definition Amplify (v by_ : Signal) : Signal := fun x =>
  a <- At v x ;;
  b <- At by_ x ;;
  Ok (a * b)%float.

(** ** Sampling *)

(** The [for] loop of [Sample]: [i] is the running offset, [bound] is
    [float64(from+to)], [frames] the samples appended so far. *)
Fixpoint Sample_loop (fuel : nat) (s : Signal) (i bound step : float64)
  (frames : list float64) : option (result (list float64)) :=
  match fuel with
  | O => None
  | S fuel' =>
      if (i <? bound)%float then
        match At s (Duration_of_float64 i) with
        | Ok val => Sample_loop fuel' s (i + step)%float bound step (frames ++ [val])
        | Panic msg => Some (Panic msg)
        end
      else Some (Ok frames)
  end.

Definition Sample (fuel : nat) (s : Signal) (rate : Z) (from to : Duration)
  : option (result (list float64)) :=
  let step := (float64_of_int Second / float64_of_int rate)%float in
  Sample_loop fuel s (float64_of_int from)
    (float64_of_int (Int64.add from to)) step [].

(** ** Which segment the walk of [Sequence] selects *)

(** The value of the running offset [i] when the loop, entered with [i],
    reaches the segment of index [k]. *)
Definition offset_from (i : Duration) (signals : list FiniteSignal) (k : nat)
  : Duration :=
  fold_left (fun acc s => Int64.add acc (fsDuration s)) (firstn k signals) i.

(** The test [x >= i && x < i+s.Duration] of the loop at index [k]. *)
Definition hit (i : Duration) (signals : list FiniteSignal) (x : Duration)
  (k : nat) (s : FiniteSignal) : Prop :=
  nth_error signals k = Some s /\
  offset_from i signals k <= x < Int64.add (offset_from i signals k) (fsDuration s).

(** The start offset of the segment of index [k]: the sum of the durations
    of the segments before it, as a number (no wrap-around). *)
Definition start_offset (signals : list FiniteSignal) (k : nat) : Z :=
  sum_durations (firstn k signals).

(** [contains signals x k s]: [s] is the segment of index [k], and [x] lies
    in its interval [[offset, offset + duration)]. *)
Definition contains (signals : list FiniteSignal) (x : Z) (k : nat)
  (s : FiniteSignal) : Prop :=
  nth_error signals k = Some s /\
  start_offset signals k <= x < start_offset signals k + fsDuration s.

(** [selected signals x k s]: [s], at index [k], is the first segment whose
    interval contains [x]. *)
Definition selected (signals : list FiniteSignal) (x : Z) (k : nat)
  (s : FiniteSignal) : Prop :=
  contains signals x k s /\
  forall j sj, (j < k)%nat -> ~ contains signals x j sj.

(** No running total overflows: every partial sum of the durations, counted
    from [i], is an [int64]. *)
Fixpoint no_overflow (i : Z) (signals : list FiniteSignal) : Prop :=
  match signals with
  | [] => True
  | s :: rest =>
      Int64.in_range (i + fsDuration s) /\ no_overflow (i + fsDuration s) rest
  end.

(** The segment at which the loop returns, [None] when it runs to its end:
    the only way to [panic("unreachable")]. *)
Fixpoint Sequence_find (signals : list FiniteSignal) (x i : Duration)
  : option FiniteSignal :=
  match signals with
  | [] => None
  | s :: rest =>
      if (i <=? x) && (x <? Int64.add i (fsDuration s))
      then Some s
      else Sequence_find rest x (Int64.add i (fsDuration s))
  end.

(** ** The PCM encoder *)

(** A byte is a number below 256; [byte_of] is Go's conversion [byte(v)]. *)
Definition byte : Type := Z.

Definition byte_of (v : Z) : byte := v mod 256.

(** [binary.BigEndian.PutUint64]: the eight bytes of [v], the most
    significant first. *)
Definition PutUint64 (v : Z) : list byte :=
  [ byte_of (Z.shiftr v 56); byte_of (Z.shiftr v 48); byte_of (Z.shiftr v 40);
    byte_of (Z.shiftr v 32); byte_of (Z.shiftr v 24); byte_of (Z.shiftr v 16);
    byte_of (Z.shiftr v 8); byte_of v ].

(** [binary.BigEndian.Uint64], the reader of those eight bytes. *)
Definition Uint64 (b0 b1 b2 b3 b4 b5 b6 b7 : byte) : Z :=
  Z.lor b7 (Z.lor (Z.shiftl b6 8) (Z.lor (Z.shiftl b5 16)
    (Z.lor (Z.shiftl b4 24) (Z.lor (Z.shiftl b3 32) (Z.lor (Z.shiftl b2 40)
      (Z.lor (Z.shiftl b1 48) (Z.shiftl b0 56))))))).

Definition sign_bit (s : bool) : Z := if s then 2 ^ 63 else 0.

(** A [float64] as the program stores it: a 64-bit word.  The arithmetic
    of the signals sees the value such a word stands for
    ([Float64value]); the encoder sees the word.  The two views differ on
    NaN only: every word with all exponent bits set and a fraction that is
    not zero stands for NaN, and which of them an operation leaves in a
    frame is the processor's choice (on amd64 the quotient [0/0] is
    [0xFFF8000000000000], [math.NaN()] is [0x7FF8000000000001]). *)
Definition bits64 : Type := Z.

Definition uint64 (w : Z) : Prop := 0 <= w < 2 ^ 64.

(** The binary64 interchange format: sign, 11 bits of biased exponent, 52
    bits of fraction.  [SFbits] gives the word of a value; for NaN, which
    has many, it gives the one of Go's [math.NaN()]. *)
Definition SFbits (x : spec_float) : Z :=
  match x with
  | S754_zero s => sign_bit s
  | S754_infinity s => sign_bit s + 2047 * 2 ^ 52
  | S754_nan => 2047 * 2 ^ 52 + 2 ^ 51 + 1
  | S754_finite s m e =>
      if Z.pos m <? 2 ^ 52 then sign_bit s + Z.pos m
      else sign_bit s + (e + 1075) * 2 ^ 52 + (Z.pos m - 2 ^ 52)
  end.

Definition SFfrombits (b : Z) : spec_float :=
  let s := Z.testbit b 63 in
  let ex := Z.shiftr b 52 mod 2 ^ 11 in
  let mant := b mod 2 ^ 52 in
  if ex =? 2047 then
    if mant =? 0 then S754_infinity s else S754_nan
  else if ex =? 0 then
    match mant with
    | Z.pos m => S754_finite s m (-1074)
    | _ => S754_zero s
    end
  else
    match mant + 2 ^ 52 with
    | Z.pos m => S754_finite s m (ex - 1075)
    | _ => S754_nan
    end.

(** The value a stored word stands for, and a word that stores a value. *)
Definition Float64value (w : bits64) : float64 := SF2Prim (SFfrombits w).

Definition Float64store (v : float64) : bits64 := SFbits (Prim2SF v).

(** [math.Float64bits] and [math.Float64frombits] are pointer casts
    between [float64] and [uint64]: the same 64 bits under the other
    type. *)
Definition Float64bits (f : bits64) : Z := f.

Definition Float64frombits (b : Z) : bits64 := b.

(** [EncodePCM]: [b = append(b, buf[:]...)] for each frame, in order. *)
Definition EncodePCM (frames : list bits64) : list byte :=
  fold_left (fun b pulse => b ++ PutUint64 (Float64bits pulse)) frames [].

(** The reader the round trip is stated with: consecutive groups of eight
    bytes, each read as a big-endian [uint64]; a buffer whose length is
    not a multiple of eight is refused. *)
Fixpoint DecodeUint64s (b : list byte) : option (list Z) :=
  match b with
  | [] => Some []
  | b0 :: b1 :: b2 :: b3 :: b4 :: b5 :: b6 :: b7 :: rest =>
      option_map (cons (Uint64 b0 b1 b2 b3 b4 b5 b6 b7)) (DecodeUint64s rest)
  | _ => None
  end.

Definition DecodePCM (b : list byte) : option (list bits64) :=
  option_map (map Float64frombits) (DecodeUint64s b).

(** ** Integers that [float64] holds exactly *)

(** An integer below [2^53] in absolute value: [float64] has 53 bits. *)
Definition small (c : Z) : Prop := Z.abs c < 2 ^ 53.

(** The binary64 number equal to the integer [c], for [0 < |c| < 2^53]:
    the sign of [c], and [|c|] shifted to 53 bits as mantissa. *)
Definition int_SF (c : Z) : spec_float :=
  let d := Z.log2 (Z.abs c) + 1 in
  S754_finite (c <? 0) (Z.to_pos (Z.abs c * 2 ^ (53 - d))) (d - 53).

(** The state of the rounding shift when nothing has been shifted out. *)
Definition exact_record (m : positive) : shr_record :=
  Build_shr_record (Z.pos m) false false.

(** [float64(time.Second) / float64(rate)] is the whole number of
    nanoseconds [Second / rate]. *)
Definition step_ok (rate : Z) : bool :=
  PrimFloat.Leibniz.eqb
    (float64_of_int Second / float64_of_int rate)%float
    (float64_of_int (Second / rate)).

(** [P k && P (k+1) && ...], for [n] numbers. *)
Fixpoint all_from (n : nat) (k : Z) (P : Z -> bool) : bool :=
  match n with
  | O => true
  | S n' => P k && all_from n' (k + 1) P
  end.

(** A divisor [k] of [10^9] and its codivisor both pass [step_ok]. *)
Definition divisor_ok (k : Z) : bool :=
  if Second mod k =? 0 then step_ok k && step_ok (Second / k) else true.

(** The samples [f x], [f (x + p)], ..., [r] of them. *)
Definition samples_from (f : Z -> float64) (p x : Z) (r : nat) : list float64 :=
  map (fun k => f (x + Z.of_nat k * p)) (seq 0 r).

(** The number of samples of a window of length [to] at period [p]: the
    number of [i >= 0] with [i * p < to]. *)
Definition sample_count (to p : Z) : nat := Z.to_nat ((to + p - 1) / p).

(** ** [Lerp] and the tempo *)

(** [math.Mod(x, y)]: the remainder of [x / y] with the sign of [x],
    computed without any rounding.  It is a NaN when [y] is zero, when [x]
    is infinite and when either is a NaN; it is [x] when [y] is infinite. *)
Definition SFmod (x y : spec_float) : spec_float :=
  match x, y with
  | S754_nan, _ | _, S754_nan => S754_nan
  | S754_infinity _, _ => S754_nan
  | _, S754_zero _ => S754_nan
  | _, S754_infinity _ => x
  | S754_zero _, S754_finite _ _ _ => x
  | S754_finite sx mx ex, S754_finite _ my ey =>
      let e := Z.min ex ey in
      let r := Z.rem (Z.pos (fst (shl_align mx ex e)))
                     (Z.pos (fst (shl_align my ey e))) in
      binary_normalize prec emax (cond_Zopp sx r) e sx
  end.

Definition Mod (x y : float64) : float64 :=
  SF2Prim (SFmod (Prim2SF x) (Prim2SF y)).

(** [Lerp]: the ramp [from + (to-from) * Mod(x, over) / over], with [over]
    as duration. *)
Definition Lerp (from to : float64) (over : Duration) : FiniteSignal :=
  F over (fun x =>
    Ok (from + (to - from) * Mod (float64_of_int x) (float64_of_int over)
               / float64_of_int over)%float).
Arguments Lerp (from to)%_float over%_Z.

(** [time.Minute], in nanoseconds. *)
Definition Minute : Duration := 60 * Second.

(** [type BPM float64] and its method [T]: the duration of [beats] beats. *)
Definition BPM : Type := float64.

Definition T (v : BPM) (beats : float64) : Duration :=
  Duration_of_float64 (beats * float64_of_int Minute / v)%float.
Arguments T (v beats)%_float.

(** * Properties of the integer arithmetic *)

Lemma wrap_small z : Int64.in_range z -> Int64.wrap z = z.
Proof.
  unfold Int64.in_range, Int64.min_int, Int64.max_int, Int64.wrap. intros H.
  rewrite Z.mod_small; lia.
Qed.

Lemma add_small a b : Int64.in_range (a + b) -> Int64.add a b = a + b.
Proof. apply wrap_small. Qed.

Lemma rem_pos t D :
  0 < D -> 0 <= t -> Int64.rem t D = Ok (t mod D) /\ 0 <= t mod D < D.
Proof.
  intros HD Ht. unfold Int64.rem.
  destruct (Z.eqb_spec D 0) as [->|_]; [lia|].
  rewrite Z.rem_mod_nonneg by lia. split; [reflexivity|].
  apply Z.mod_pos_bound; lia.
Qed.

(** As long as the exact sum of non-negative durations fits [int64], it is
    the total that [Sequence] accumulates. *)
Lemma totalDuration_exact signals :
  Forall (fun s => 0 <= fsDuration s) signals ->
  sum_durations signals <= Int64.max_int ->
  totalDuration signals = sum_durations signals.
Proof.
  unfold totalDuration. intros Hpos Hmax.
  enough (H : forall a, 0 <= a -> a + sum_durations signals <= Int64.max_int ->
            fold_left (fun acc s => Int64.add acc (fsDuration s)) signals a =
            a + sum_durations signals) by (apply (H 0); lia).
  clear Hmax. induction Hpos as [|s rest Hs Hrest IH]; intros a Ha Hmax;
    cbn [fold_left sum_durations fold_right] in *; [lia|].
  fold (sum_durations rest) in *.
  assert (Hsum : 0 <= sum_durations rest).
  { clear -Hrest. induction Hrest; cbn [sum_durations fold_right];
      [lia|fold (sum_durations l); lia]. }
  unfold Int64.max_int in Hmax.
  rewrite add_small by (unfold Int64.in_range, Int64.min_int, Int64.max_int; lia).
  rewrite IH by (unfold Int64.max_int; lia). lia.
Qed.

(** * The walk of [Sequence] *)

Lemma offset_from_0 i signals : offset_from i signals 0 = i.
Proof. reflexivity. Qed.

Lemma offset_from_S i s rest k :
  offset_from i (s :: rest) (S k) =
  offset_from (Int64.add i (fsDuration s)) rest k.
Proof. reflexivity. Qed.

Lemma hit_S i s rest x k sk :
  hit i (s :: rest) x (S k) sk <-> hit (Int64.add i (fsDuration s)) rest x k sk.
Proof. unfold hit. rewrite offset_from_S. reflexivity. Qed.

Lemma offset_from_all signals : forall i,
  offset_from i signals (List.length signals) =
  fold_left (fun acc s => Int64.add acc (fsDuration s)) signals i.
Proof. intros i. unfold offset_from. now rewrite firstn_all. Qed.

(** The loop and its instrumented version agree. *)
Lemma Sequence_walk_find signals : forall x i,
  Sequence_walk signals x i =
  match Sequence_find signals x i with
  | Some s => At (fsSignal s) x
  | None => Panic "unreachable"
  end.
Proof.
  induction signals as [|s rest IH]; intros x i; simpl; [reflexivity|].
  destruct ((i <=? x) && (x <? Int64.add i (fsDuration s))); auto.
Qed.

(** Starting at or below [x] and ending above it, the loop returns at the
    first segment whose test succeeds.  No assumption on the signs of the
    durations, nor on overflow: the offsets are the ones the code computes. *)
Lemma Sequence_find_first signals : forall x i,
  i <= x < fold_left (fun acc s => Int64.add acc (fsDuration s)) signals i ->
  exists k s,
    hit i signals x k s /\
    (forall j sj, (j < k)%nat -> ~ hit i signals x j sj) /\
    Sequence_find signals x i = Some s.
Proof.
  induction signals as [|s rest IH]; intros x i [Hlo Hhi]; simpl in *; [lia|].
  destruct (Z.leb_spec i x) as [_|]; [|lia]. simpl.
  destruct (Z.ltb_spec x (Int64.add i (fsDuration s))) as [Hlt|Hge].
  - exists 0%nat, s. split; [|split; [intros j sj Hj; lia|reflexivity]].
    split; [reflexivity|]. rewrite offset_from_0. lia.
  - destruct (IH x (Int64.add i (fsDuration s)) (conj Hge Hhi))
      as (k & sk & Hhit & Hfirst & Hfind).
    exists (S k), sk. split; [now apply hit_S|]. split; [|exact Hfind].
    intros [|j] sj Hj.
    + intros [Hnth [_ Hx]]. simpl in Hnth. injection Hnth as <-.
      rewrite offset_from_0 in Hx. lia.
    + rewrite hit_S. apply Hfirst. lia.
Qed.

Lemma hit_In i signals x k s : hit i signals x k s -> In s signals.
Proof. intros [Hnth _]. eapply nth_error_In; eauto. Qed.

(** ** Offsets without overflow *)

Lemma start_offset_0 signals : start_offset signals 0 = 0.
Proof. reflexivity. Qed.

Lemma start_offset_S s rest k :
  start_offset (s :: rest) (S k) = fsDuration s + start_offset rest k.
Proof. reflexivity. Qed.

(** Without overflow the offsets of the loop are the exact partial sums. *)
Lemma offset_from_exact signals : forall i k,
  no_overflow i signals ->
  offset_from i signals k = i + start_offset signals k.
Proof.
  induction signals as [|s rest IH]; intros i k Hno.
  - unfold offset_from, start_offset. rewrite !firstn_nil. cbn. lia.
  - destruct k as [|k]; [rewrite offset_from_0, start_offset_0; lia|].
    destruct Hno as [Hr Hrest].
    rewrite offset_from_S, start_offset_S.
    rewrite (add_small i (fsDuration s)) by exact Hr.
    rewrite IH by exact Hrest. lia.
Qed.

Lemma offset_end_exact signals : forall i k s,
  no_overflow i signals -> nth_error signals k = Some s ->
  Int64.add (offset_from i signals k) (fsDuration s) =
  i + start_offset signals k + fsDuration s.
Proof.
  induction signals as [|s0 rest IH]; intros i k s Hno Hnth.
  - destruct k; discriminate.
  - destruct Hno as [Hr Hrest]. destruct k as [|k].
    + cbn [nth_error] in Hnth. injection Hnth as <-.
      rewrite offset_from_0, start_offset_0, add_small by exact Hr. lia.
    + cbn [nth_error] in Hnth.
      rewrite offset_from_S, start_offset_S.
      rewrite (add_small i (fsDuration s0)) by exact Hr.
      rewrite (IH _ _ _ Hrest Hnth). lia.
Qed.

Lemma total_exact signals : forall i,
  no_overflow i signals ->
  fold_left (fun acc s => Int64.add acc (fsDuration s)) signals i =
  i + sum_durations signals.
Proof.
  induction signals as [|s rest IH]; intros i Hno;
    cbn [fold_left sum_durations fold_right]; [lia|].
  fold (sum_durations rest). destruct Hno as [Hr Hrest].
  rewrite add_small by exact Hr. rewrite IH by exact Hrest. lia.
Qed.

(** The test of the loop is then the membership of the interval. *)
Lemma hit_contains signals x k s :
  no_overflow 0 signals -> (hit 0 signals x k s <-> contains signals x k s).
Proof.
  intros Hno. unfold hit, contains. split; intros [Hnth Hx]; (split; [exact Hnth|]).
  - rewrite (offset_end_exact _ _ _ _ Hno Hnth) in Hx.
    rewrite (offset_from_exact _ _ _ Hno) in Hx. lia.
  - rewrite (offset_end_exact _ _ _ _ Hno Hnth).
    rewrite (offset_from_exact _ _ _ Hno). lia.
Qed.

(** Non-negative durations whose sum fits never overflow on the way. *)
Lemma nonneg_no_overflow signals : forall i,
  Forall (fun s => 0 <= fsDuration s) signals ->
  0 <= i -> i + sum_durations signals <= Int64.max_int ->
  no_overflow i signals.
Proof.
  induction signals as [|s rest IH]; intros i Hpos Hi Hmax; cbn [no_overflow];
    [exact I|].
  cbn [sum_durations fold_right] in Hmax. fold (sum_durations rest) in Hmax.
  inversion Hpos as [|s' rest' Hs Hrest]; subst.
  assert (Hsum : 0 <= sum_durations rest).
  { clear -Hrest. induction Hrest; cbn [sum_durations fold_right];
      [lia|fold (sum_durations l); lia]. }
  unfold Int64.max_int in Hmax. split.
  - unfold Int64.in_range, Int64.min_int, Int64.max_int. lia.
  - apply IH; [exact Hrest|lia|unfold Int64.max_int; lia].
Qed.

(** * [Sequence] *)

(** In terms of the [int64] total the code accumulates: when that total is
    positive and [t >= 0], the loop returns at the first segment whose test
    succeeds, and calls its signal with [t mod total].  Nothing is assumed
    on the signs of the durations, nor on overflow. *)
Lemma Sequence_returns_first (signals : list FiniteSignal) (t : Duration) :
  let D := totalDuration signals in
  0 < D -> 0 <= t ->
  exists k s,
    hit 0 signals (t mod D) k s /\
    (forall j sj, (j < k)%nat -> ~ hit 0 signals (t mod D) j sj) /\
    Sequence_find signals (t mod D) 0 = Some s /\
    Sequence signals t = At (fsSignal s) (t mod D).
Proof.
  intros D HD Ht.
  destruct (rem_pos t D HD Ht) as [Hrem Hx].
  destruct (Sequence_find_first signals (t mod D) 0) as (k & s & Hhit & Hfirst & Hfind).
  { exact Hx. }
  exists k, s. split; [exact Hhit|]. split; [exact Hfirst|]. split; [exact Hfind|].
  unfold Sequence. fold D. rewrite Hrem. simpl.
  rewrite Sequence_walk_find, Hfind. reflexivity.
Qed.

(** C1 (amended: no running total of the durations overflows [int64]).
    For segments whose total duration [D] is positive and every time
    offset [t >= 0], the signal built by [Sequence] returns the value of the
    selected segment's own signal at [t mod D], the time within the period:
    the segment's start offset is not subtracted before the call.  [D] and
    the intervals of the segments are the exact sums of the durations. *)
Theorem Sequence_evaluates_at_absolute_time (signals : list FiniteSignal)
  (t : Duration) :
  let D := sum_durations signals in
  no_overflow 0 signals -> 0 < D -> 0 <= t ->
  exists k s,
    selected signals (t mod D) k s /\
    Sequence signals t = At (fsSignal s) (t mod D).
Proof.
  intros D Hno HD Ht.
  assert (HT : totalDuration signals = D).
  { unfold totalDuration. rewrite total_exact by exact Hno. reflexivity. }
  destruct (Sequence_returns_first signals t) as (k & s & Hhit & Hfirst & _ & Heval);
    [rewrite HT; exact HD|exact Ht|].
  rewrite HT in Hhit, Hfirst, Heval.
  exists k, s. split; [|exact Heval].
  split; [now apply hit_contains|].
  intros j sj Hj Hc. apply (Hfirst j sj Hj). now apply hit_contains.
Qed.

Lemma Sequence_evaluates_at_absolute_time_witness :
  exists k s,
    selected [F 2 (Constant 1); F 3 (fun x => Ok (float64_of_int x))]
      (8 mod sum_durations [F 2 (Constant 1); F 3 (fun x => Ok (float64_of_int x))])
      k s /\
    Sequence [F 2 (Constant 1); F 3 (fun x => Ok (float64_of_int x))] 8 =
    At (fsSignal s)
      (8 mod sum_durations [F 2 (Constant 1); F 3 (fun x => Ok (float64_of_int x))]).
Proof.
  apply (Sequence_evaluates_at_absolute_time
           [F 2 (Constant 1); F 3 (fun x => Ok (float64_of_int x))] 8).
  - vm_compute. repeat split; congruence.
  - reflexivity.
  - vm_compute. congruence.
Defined.

(** C1 as stated fails when the durations overflow [int64]: two segments of
    [2^62] ns have the positive total [2^63] ns, the offset [2^62] lies in
    the interval of the second one, and [Sequence] evaluates no segment at
    all: the total it accumulated is [-2^63], and the loop runs to
    [panic("unreachable")]. *)
Lemma Sequence_absolute_time_overflow :
  let signals := [F (2 ^ 62) (Constant 1); F (2 ^ 62) (Constant (-1))] in
  let D := sum_durations signals in
  0 < D /\ 0 <= 2 ^ 62 /\
  selected signals (2 ^ 62 mod D) 1 (F (2 ^ 62) (Constant (-1))) /\
  Sequence signals (2 ^ 62) = Panic "unreachable" /\
  forall k s, selected signals (2 ^ 62 mod D) k s ->
    Sequence signals (2 ^ 62) <> At (fsSignal s) (2 ^ 62 mod D).
Proof.
  intros signals D.
  split; [reflexivity|]. split; [discriminate|]. split; [|split; [reflexivity|]].
  - split.
    + split; [reflexivity|]. split; vm_compute; congruence.
    + intros j sj Hj [Hnth [_ Hx]].
      destruct j as [|j]; [|lia].
      cbn [signals nth_error] in Hnth. injection Hnth as <-.
      vm_compute in Hx. discriminate.
  - intros k s [[Hnth _] _].
    change (Sequence signals (2 ^ 62)) with (@Panic float64 "unreachable").
    destruct k as [|[|k]]; cbn [signals nth_error] in Hnth.
    + injection Hnth as <-. discriminate.
    + injection Hnth as <-. discriminate.
    + destruct k; discriminate.
Qed.

(** The second of two segments starts at offset 2; at [t = 3] its signal is
    called with 3, not with [3 - 2]. *)
Example Sequence_not_relocalized :
  Sequence [F 2 (Constant 1); F 3 (fun x => Ok (float64_of_int x))] 3 = Ok 3%float /\
  At (fun x => Ok (float64_of_int x)) (3 - 2) = Ok 1%float.
Proof. split; reflexivity. Qed.



(** C10 (amended: the total must fit [int64]).  For non-negative durations
    whose sum [D] is positive and at most the largest [int64], and every
    [t >= 0], the loop of [Sequence] returns from one of the segments: it
    never runs to its end, so [panic("unreachable")] is not reached. *)
Theorem Sequence_walk_returns (signals : list FiniteSignal) (t : Duration) :
  let D := sum_durations signals in
  Forall (fun s => 0 <= fsDuration s) signals ->
  0 < D -> D <= Int64.max_int -> 0 <= t ->
  exists s,
    In s signals /\
    Sequence_find signals (t mod D) 0 = Some s /\
    Sequence signals t = At (fsSignal s) (t mod D).
Proof.
  intros D Hpos HD Hmax Ht.
  assert (HT : totalDuration signals = D) by now apply totalDuration_exact.
  destruct (Sequence_returns_first signals t) as (k & s & Hhit & _ & Hfind & Heval);
    [rewrite HT; exact HD|exact Ht|].
  rewrite HT in Hfind, Heval.
  exists s. split; [eapply hit_In; eauto|]. split; [exact Hfind|exact Heval].
Qed.

Lemma Sequence_walk_returns_witness :
  exists s,
    In s [F 2 (Constant 1); F 0 (Constant 0); F 3 (Constant (-1))] /\
    Sequence_find [F 2 (Constant 1); F 0 (Constant 0); F 3 (Constant (-1))]
      (7 mod sum_durations [F 2 (Constant 1); F 0 (Constant 0); F 3 (Constant (-1))]) 0
    = Some s /\
    Sequence [F 2 (Constant 1); F 0 (Constant 0); F 3 (Constant (-1))] 7 =
    At (fsSignal s)
      (7 mod sum_durations [F 2 (Constant 1); F 0 (Constant 0); F 3 (Constant (-1))]).
Proof.
  apply (Sequence_walk_returns
           [F 2 (Constant 1); F 0 (Constant 0); F 3 (Constant (-1))] 7).
  - repeat constructor; vm_compute; congruence.
  - reflexivity.
  - vm_compute. congruence.
  - vm_compute. congruence.
Defined.

(** C10 as stated fails when the sum of the durations overflows [int64]:
    two segments of [2^62] ns are non-negative and sum to [2^63] ns, a
    positive total; the code accumulates [-2^63], leaves [t = 2^62] as it
    is, and no segment's test succeeds: the loop reaches
    [panic("unreachable")]. *)
Lemma Sequence_walk_overflow :
  let signals := [F (2 ^ 62) (Constant 1); F (2 ^ 62) (Constant (-1))] in
  Forall (fun s => 0 <= fsDuration s) signals /\
  0 < sum_durations signals /\ 0 <= 2 ^ 62 /\
  Int64.rem (2 ^ 62) (totalDuration signals) = Ok (2 ^ 62) /\
  Sequence_find signals (2 ^ 62) 0 = None /\
  Sequence signals (2 ^ 62) = Panic "unreachable".
Proof.
  intros signals.
  split; [repeat constructor; discriminate|].
  split; [reflexivity|]. split; [discriminate|].
  repeat split; reflexivity.
Qed.

(** C7 (amended: the two durations must add up without overflow).  For two
    segments of durations [d1 > 0] and [d2 > 0] with [d1 + d2] at most the
    largest [int64], the offset [t = d1] belongs to the second segment:
    [Sequence] returns the second signal's value at [d1]. *)
Theorem Sequence_boundary (s1 s2 : Signal) (d1 d2 : Duration) :
  0 < d1 -> 0 < d2 -> d1 + d2 <= Int64.max_int ->
  Sequence [F d1 s1; F d2 s2] d1 = At s2 d1.
Proof.
  intros H1 H2 Hsum. unfold Int64.max_int in Hsum.
  assert (Ha : Int64.add 0 d1 = d1).
  { apply add_small. unfold Int64.in_range, Int64.min_int, Int64.max_int. lia. }
  assert (Hb : Int64.add d1 d2 = d1 + d2).
  { apply add_small. unfold Int64.in_range, Int64.min_int, Int64.max_int. lia. }
  unfold Sequence, totalDuration, F. cbn [fold_left fsDuration].
  rewrite Ha, Hb.
  unfold Int64.rem. destruct (Z.eqb_spec (d1 + d2) 0); [lia|].
  rewrite Z.rem_small by lia.
  cbn [bind Sequence_walk fsDuration fsSignal]. rewrite Ha, Hb.
  destruct (Z.leb_spec 0 d1); [|lia].
  destruct (Z.ltb_spec d1 d1); [lia|]. cbn [andb].
  destruct (Z.leb_spec d1 d1); [|lia].
  destruct (Z.ltb_spec d1 (d1 + d2)); [|lia]. reflexivity.
Qed.

Lemma Sequence_boundary_witness :
  Sequence [F 5 (Constant 1); F 7 (Constant (-1))] 5 = At (Constant (-1)) 5.
Proof.
  apply (Sequence_boundary (Constant 1) (Constant (-1)) 5 7);
    vm_compute; congruence.
Defined.

(** C7 as stated fails when [d1 + d2] overflows [int64]: the total wraps to
    a negative number, [d1 % total] is [d1], the second test compares with
    the wrapped offset, and the loop runs to [panic("unreachable")]. *)
Lemma Sequence_boundary_overflow :
  0 < 2 ^ 62 /\
  totalDuration [F (2 ^ 62) (Constant 1); F (2 ^ 62) (Constant (-1))] = - 2 ^ 63 /\
  Sequence [F (2 ^ 62) (Constant 1); F (2 ^ 62) (Constant (-1))] (2 ^ 62)
    = Panic "unreachable" /\
  Sequence [F (2 ^ 62) (Constant 1); F (2 ^ 62) (Constant (-1))] (2 ^ 62)
    <> At (Constant (-1)) (2 ^ 62).
Proof.
  split; [reflexivity|]. split; [reflexivity|]. split; [reflexivity|].
  vm_compute. discriminate.
Qed.

(** The scenario of the specification: two segments of the same length [d],
    of values 1 and -1, give 1 at 0, -1 at [d] and 1 again at [2d]. *)
Example Sequence_two_constants :
  let s := Sequence [F 250 (Constant 1); F 250 (Constant (-1))] in
  s 0 = Ok 1%float /\ s 250 = Ok (-1)%float /\ s 500 = Ok 1%float.
Proof. repeat split. Qed.

(** C3 (amended: the failure is the runtime's, at each evaluation).  With a
    total duration of zero [Sequence] still returns a signal; every
    evaluation of it, at any [t], panics with the Go runtime's integer
    division error, raised by [x % totalDuration] itself.  No amplitude is
    produced. *)
Theorem Sequence_zero_total_panics (signals : list FiniteSignal) (t : Duration) :
  totalDuration signals = 0 ->
  Sequence signals t = Panic divide_error.
Proof. intros H. unfold Sequence. rewrite H. reflexivity. Qed.

Lemma Sequence_zero_total_panics_witness :
  Sequence [F 0 (Constant 1); Blank 0] 42 = Panic divide_error.
Proof.
  apply (Sequence_zero_total_panics [F 0 (Constant 1); Blank 0] 42).
  reflexivity.
Defined.

(** C3 as stated fails: nothing guards the remainder.  For no segments at
    all the panic is the one of the modulo by zero, and no other. *)
Lemma Sequence_zero_total_not_guarded :
  totalDuration [] = 0 /\
  Int64.rem 0 (totalDuration []) = Panic divide_error /\
  Sequence [] 0 = Panic divide_error /\
  ~ (exists msg, msg <> divide_error /\ Sequence [] 0 = Panic msg).
Proof.
  repeat split. intros (msg & Hne & H). vm_compute in H.
  injection H as <-. now apply Hne.
Qed.

(** * [Combine] and [Amplify] *)

(** C2 (amended: no failure, the mean of nothing is a NaN).  [Combine]
    with no signals returns a signal that evaluates without any error, at
    every [t], to [0 / 0]: a NaN. *)
Theorem Combine_empty_is_nan (t : Duration) :
  Combine [] t = Ok nan /\ is_nan nan = true.
Proof. split; reflexivity. Qed.

(** C2 as stated fails: the empty mix does not fail at [t = 0]. *)
Lemma Combine_empty_no_error :
  Combine [] 0 = Ok nan /\
  ~ (exists msg, Combine [] 0 = Panic msg).
Proof. split; [reflexivity|]. intros [msg H]. discriminate H. Qed.

(** The mean of constants, and the mix of one signal. *)
Example Combine_mean :
  Combine [Constant 1; Constant 2; Constant 6] 17 = Ok 3%float.
Proof. reflexivity. Qed.

(** A finite [float64] is a zero or a number with a mantissa. *)
Lemma is_finite_cases (v : float64) :
  is_finite v = true ->
  exists s, Prim2SF v = S754_zero s \/ exists m e, Prim2SF v = S754_finite s m e.
Proof.
  unfold is_finite, is_nan, is_infinity.
  rewrite !eqb_spec, abs_spec.
  change (Prim2SF infinity) with (S754_infinity false).
  destruct (Prim2SF v) as [s|[|]| |s m e]; cbn; try discriminate; intros _.
  - exists s. now left.
  - exists s. right. now exists m, e.
Qed.

(** C9 (amended: the carrier must have a finite value at [t]).  When the
    carrier [s] returns a finite number at [t], neither a NaN nor an
    infinity, [Amplify s (Constant 0)] returns a zero at [t]: a value equal
    to 0 for Go's [==] (it is -0 under a negative carrier). *)
Theorem Amplify_by_zero (s : Signal) (t : Duration) (v : float64) :
  At s t = Ok v -> is_finite v = true ->
  exists y, Amplify s (Constant 0) t = Ok y /\ (y =? 0)%float = true.
Proof.
  intros Hs Hfin. exists (v * 0)%float. split.
  - unfold Amplify. rewrite Hs. reflexivity.
  - rewrite eqb_spec, mul_spec.
    change (Prim2SF 0%float) with (S754_zero false).
    destruct (is_finite_cases v Hfin) as [sg [-> | (m & e & ->)]]; reflexivity.
Qed.

Lemma Amplify_by_zero_witness :
  exists y, Amplify (Constant (-3)) (Constant 0) 7 = Ok y /\ (y =? 0)%float = true.
Proof.
  apply (Amplify_by_zero (Constant (-3)) 7 (-3)%float); reflexivity.
Defined.

(** C9 as stated fails for a carrier that is infinite at [t] (the product
    is a NaN, which equals nothing), and for one that panics there. *)
Lemma Amplify_by_zero_not_zero :
  Amplify (Constant infinity) (Constant 0) 0 = Ok nan /\
  (nan =? 0)%float = false /\
  Amplify (Combine []) (Constant 0) 0 = Ok nan /\
  Amplify (Sequence []) (Constant 0) 0 = Panic divide_error.
Proof. repeat split. Qed.

Example Amplify_by_one :
  Amplify (Constant 0.25) (Constant 1) 3 = Ok 0.25%float.
Proof. reflexivity. Qed.

(** * [EncodePCM] *)

(** ** Eight bytes and back *)

Lemma byte_bits v k n : 0 <= k -> 0 <= n ->
  Z.testbit (Z.shiftl (byte_of (Z.shiftr v k)) k) n =
  (k <=? n) && (n <? k + 8) && Z.testbit v n.
Proof.
  intros Hk Hn. unfold byte_of.
  destruct (Z.leb_spec k n).
  - rewrite Z.shiftl_spec by lia. change 256 with (2 ^ 8).
    rewrite Z.testbit_mod_pow2 by lia. rewrite Z.shiftr_spec by lia.
    replace (n - k + k) with n by lia.
    destruct (Z.ltb_spec (n - k) 8), (Z.ltb_spec n (k + 8)); try lia; reflexivity.
  - rewrite Z.shiftl_spec_low by lia. reflexivity.
Qed.

Ltac decide_cmp :=
  repeat match goal with
  | |- context [?a <=? ?b] =>
      first [rewrite (proj2 (Z.leb_le a b)) by lia
            | rewrite (proj2 (Z.leb_gt a b)) by lia]
  | |- context [?a <? ?b] =>
      first [rewrite (proj2 (Z.ltb_lt a b)) by lia
            | rewrite (proj2 (Z.ltb_ge a b)) by lia]
  end.

Lemma testbit_uint64_high v n : 0 <= v < 2 ^ 64 -> 64 <= n -> Z.testbit v n = false.
Proof.
  intros Hv Hn. destruct (Z.eq_dec v 0) as [->|Hne]; [apply Z.bits_0|].
  apply Z.bits_above_log2; [lia|].
  apply Z.lt_le_trans with 64; [|exact Hn].
  apply Z.log2_lt_pow2; lia.
Qed.

Lemma Uint64_PutUint64 v :
  0 <= v < 2 ^ 64 ->
  Uint64 (byte_of (Z.shiftr v 56)) (byte_of (Z.shiftr v 48))
         (byte_of (Z.shiftr v 40)) (byte_of (Z.shiftr v 32))
         (byte_of (Z.shiftr v 24)) (byte_of (Z.shiftr v 16))
         (byte_of (Z.shiftr v 8)) (byte_of v) = v.
Proof.
  intros Hv. unfold Uint64.
  apply Z.bits_inj'. intros n Hn.
  rewrite !Z.lor_spec, !byte_bits by lia.
  unfold byte_of. change 256 with (2 ^ 8). rewrite Z.testbit_mod_pow2 by lia.
  destruct (Z.ltb_spec n 64) as [Hlt|Hge].
  - assert (Hc : n < 8 \/ 8 <= n < 16 \/ 16 <= n < 24 \/ 24 <= n < 32 \/
                 32 <= n < 40 \/ 40 <= n < 48 \/ 48 <= n < 56 \/ 56 <= n < 64)
      by lia.
    destruct Hc as [H|[H|[H|[H|[H|[H|[H|H]]]]]]]; decide_cmp; cbn [andb orb];
      rewrite ?orb_false_r; reflexivity.
  - rewrite (testbit_uint64_high v n Hv Hge), !andb_false_r. reflexivity.
Qed.

Lemma byte_of_range v : 0 <= byte_of v < 256.
Proof. unfold byte_of. apply Z.mod_pos_bound. lia. Qed.

Lemma PutUint64_bytes v : Forall (fun b => 0 <= b < 256) (PutUint64 v).
Proof. unfold PutUint64. repeat constructor; apply byte_of_range. Qed.

(** ** The bits of a [float64] and back *)

Lemma digits2_size m : digits2_pos m = Pos.size m.
Proof. induction m; simpl; congruence. Qed.

(** A valid mantissa is either below [2^52] with the least exponent (a
    subnormal number) or has exactly 53 bits. *)
Lemma valid_finite_cases m e :
  bounded prec emax m e = true ->
  (Z.pos m < 2 ^ 52 /\ e = -1074) \/
  (2 ^ 52 <= Z.pos m < 2 ^ 53 /\ -1074 <= e <= 971).
Proof.
  unfold bounded, canonical_mantissa, fexp, SpecFloat.emin, prec, emax.
  rewrite andb_true_iff, Z.eqb_eq, Z.leb_le, digits2_size.
  intros [Hc He].
  pose proof (Pos.size_gt m) as Hgt. pose proof (Pos.size_le m) as Hle.
  apply Pos2Z.pos_lt_pos in Hgt. apply Pos2Z.pos_le_pos in Hle.
  rewrite Pos2Z.inj_pow in Hgt, Hle. rewrite Pos2Z.inj_xO in Hle.
  change (Z.pos 2) with 2 in *.
  set (d := Z.pos (Pos.size m)) in *.
  assert (Hd : 0 < d) by (unfold d; lia).
  destruct (Z.lt_ge_cases d 53) as [Hlt|Hge].
  - left. split; [|lia].
    apply Z.lt_le_trans with (2 ^ d); [exact Hgt|].
    apply Z.pow_le_mono_r; lia.
  - right. assert (H53 : d = 53) by lia. rewrite H53 in *.
    split; [|lia]. split; [|exact Hgt].
    change (2 ^ 53) with (2 * 2 ^ 52) in Hle. lia.
Qed.

Lemma sign_bit_range s : sign_bit s = 0 \/ sign_bit s = 2 ^ 63.
Proof. destruct s; auto. Qed.

Lemma decode_fields s ex mant :
  0 <= ex < 2 ^ 11 -> 0 <= mant < 2 ^ 52 ->
  let b := sign_bit s + ex * 2 ^ 52 + mant in
  Z.testbit b 63 = s /\ Z.shiftr b 52 mod 2 ^ 11 = ex /\ b mod 2 ^ 52 = mant.
Proof.
  intros Hex Hm b.
  assert (Hs : sign_bit s = Z.b2z s * 2 ^ 63) by (destruct s; reflexivity).
  split; [|split].
  - assert (Hq : b / 2 ^ 63 = Z.b2z s).
    { unfold b. rewrite Hs. symmetry.
      apply (Z.div_unique _ _ _ (ex * 2 ^ 52 + mant)); [left; nia|ring]. }
    destruct s.
    + apply Z.testbit_true; [lia|]. now rewrite Hq.
    + apply Z.testbit_false; [lia|]. now rewrite Hq.
  - rewrite Z.shiftr_div_pow2 by lia.
    replace b with ((Z.b2z s * 2 ^ 11 + ex) * 2 ^ 52 + mant).
    2:{ unfold b. rewrite Hs. change (2 ^ 63) with (2 ^ 11 * 2 ^ 52). ring. }
    rewrite Z.div_add_l, (Z.div_small mant) by lia.
    rewrite Z.add_0_r, Z.add_comm, Z.mod_add, Z.mod_small; lia.
  - replace b with (mant + (Z.b2z s * 2 ^ 11 + ex) * 2 ^ 52).
    2:{ unfold b. rewrite Hs. change (2 ^ 63) with (2 ^ 11 * 2 ^ 52). ring. }
    rewrite Z.mod_add, Z.mod_small; lia.
Qed.

Lemma SFfrombits_SFbits x : valid_binary x = true -> SFfrombits (SFbits x) = x.
Proof.
  destruct x as [s|s| |s m e]; intros Hv.
  - destruct s; reflexivity.
  - destruct s; reflexivity.
  - reflexivity.
  - cbn [SFbits]. cbn [SpecFloat.valid_binary] in Hv.
    destruct (valid_finite_cases m e Hv) as [[Hm He]|[Hm He]].
    + destruct (Z.ltb_spec (Z.pos m) (2 ^ 52)) as [_|]; [|lia]. subst e.
      destruct (decode_fields s 0 (Z.pos m)) as (H1 & H2 & H3); [lia|lia|].
      rewrite Z.mul_0_l, Z.add_0_r in H1, H2, H3.
      unfold SFfrombits. rewrite H1, H2, H3. reflexivity.
    + destruct (Z.ltb_spec (Z.pos m) (2 ^ 52)) as [|_]; [lia|].
      destruct (decode_fields s (e + 1075) (Z.pos m - 2 ^ 52)) as (H1 & H2 & H3);
        [lia|lia|].
      unfold SFfrombits. rewrite H1, H2, H3.
      destruct (Z.eqb_spec (e + 1075) 2047); [lia|].
      destruct (Z.eqb_spec (e + 1075) 0); [lia|].
      replace (Z.pos m - 2 ^ 52 + 2 ^ 52) with (Z.pos m) by lia.
      replace (e + 1075 - 1075) with e by lia. reflexivity.
Qed.

Lemma SFbits_range x : valid_binary x = true -> 0 <= SFbits x < 2 ^ 64.
Proof.
  destruct x as [s|s| |s m e]; intros Hv; cbn [SFbits].
  - destruct (sign_bit_range s) as [-> | ->]; lia.
  - destruct (sign_bit_range s) as [-> | ->]; lia.
  - lia.
  - cbn [SpecFloat.valid_binary] in Hv.
    destruct (valid_finite_cases m e Hv) as [[Hm He]|[Hm He]];
      destruct (Z.ltb_spec (Z.pos m) (2 ^ 52)); try lia;
      destruct (sign_bit_range s) as [-> | ->]; lia.
Qed.

(** Every value has a word that stores it, and reading that word gives the
    value back. *)
Lemma Float64store_range v : uint64 (Float64store v).
Proof. apply SFbits_range, Prim2SF_valid. Qed.

Lemma Float64value_store v : Float64value (Float64store v) = v.
Proof.
  unfold Float64value, Float64store.
  rewrite SFfrombits_SFbits by apply Prim2SF_valid.
  apply SF2Prim_Prim2SF.
Qed.

Lemma Float64frombits_Float64bits f : Float64frombits (Float64bits f) = f.
Proof. reflexivity. Qed.

(** NaN has more than one word: the two below are the quotient [0/0] of an
    amd64 processor and Go's [math.NaN()]. *)
Example nan_words :
  Float64value 0xFFF8000000000000 = nan /\
  Float64value 0x7FF8000000000001 = nan /\
  Float64store nan = 0x7FF8000000000001 /\
  Float64store (0 / 0)%float = 0x7FF8000000000001.
Proof. repeat split; reflexivity. Qed.

(** ** The whole buffer *)

Lemma EncodePCM_from (frames : list bits64) : forall b,
  fold_left (fun b pulse => b ++ PutUint64 (Float64bits pulse)) frames b =
  b ++ flat_map (fun pulse => PutUint64 (Float64bits pulse)) frames.
Proof.
  induction frames as [|pulse rest IH]; intros b; simpl.
  - now rewrite app_nil_r.
  - rewrite IH, <- app_assoc. reflexivity.
Qed.

Lemma EncodePCM_cons pulse rest :
  EncodePCM (pulse :: rest) = PutUint64 (Float64bits pulse) ++ EncodePCM rest.
Proof. unfold EncodePCM. simpl. now rewrite !EncodePCM_from. Qed.

Lemma DecodeUint64s_EncodePCM frames :
  Forall uint64 frames ->
  DecodeUint64s (EncodePCM frames) = Some (map Float64bits frames).
Proof.
  induction 1 as [|pulse rest Hp _ IH]; [reflexivity|].
  rewrite EncodePCM_cons. unfold PutUint64.
  cbn [app DecodeUint64s map]. rewrite IH. cbn [option_map].
  now rewrite Uint64_PutUint64 by exact Hp.
Qed.

Lemma DecodePCM_EncodePCM frames :
  Forall uint64 frames -> DecodePCM (EncodePCM frames) = Some frames.
Proof.
  intros H. unfold DecodePCM. rewrite DecodeUint64s_EncodePCM by exact H.
  cbn [option_map]. rewrite map_map. f_equal.
  rewrite <- (map_id frames) at 2. apply map_ext.
  intros f. apply Float64frombits_Float64bits.
Qed.

(** C8. [EncodePCM] is a total function of the frames as they are stored
    (64-bit words); its output has exactly eight bytes per sample, and
    reading the buffer eight bytes at a time as big-endian 64-bit words
    gives back the word of every sample, in order: the samples themselves,
    bit for bit, whichever NaN pattern a sample holds. *)
Theorem EncodePCM_roundtrip (frames : list bits64) :
  Forall uint64 frames ->
  Z.of_nat (List.length (EncodePCM frames)) = 8 * Z.of_nat (List.length frames) /\
  Forall (fun b => 0 <= b < 256) (EncodePCM frames) /\
  DecodeUint64s (EncodePCM frames) = Some (map Float64bits frames) /\
  DecodePCM (EncodePCM frames) = Some frames.
Proof.
  intros Hw. split; [|split; [|split]].
  - clear Hw. induction frames as [|pulse rest IH]; [reflexivity|].
    rewrite EncodePCM_cons, length_app. cbn [PutUint64 List.length]. lia.
  - clear Hw. induction frames as [|pulse rest IH]; [constructor|].
    rewrite EncodePCM_cons. apply Forall_app. split; [apply PutUint64_bytes|exact IH].
  - now apply DecodeUint64s_EncodePCM.
  - now apply DecodePCM_EncodePCM.
Qed.

(** The frames of the witness are 1.0, the NaN of [0/0] on amd64, Go's
    [math.NaN()] and -0.0. *)
Lemma EncodePCM_roundtrip_witness :
  let frames :=
    [0x3FF0000000000000; 0xFFF8000000000000; 0x7FF8000000000001;
     0x8000000000000000] in
  Forall uint64 frames /\
  (Z.of_nat (List.length (EncodePCM frames)) = 8 * Z.of_nat (List.length frames) /\
   Forall (fun b => 0 <= b < 256) (EncodePCM frames) /\
   DecodeUint64s (EncodePCM frames) = Some (map Float64bits frames) /\
   DecodePCM (EncodePCM frames) = Some frames).
Proof.
  assert (Hw : Forall uint64
    [0x3FF0000000000000; 0xFFF8000000000000; 0x7FF8000000000001;
     0x8000000000000000]).
  { repeat constructor; unfold uint64; lia. }
  split; [exact Hw|].
  apply (EncodePCM_roundtrip _ Hw).
Defined.

(** 1.0 is [0x3FF0000000000000] and -2.0 is [0xC000000000000000]; the NaN
    of [0/0] keeps its own bytes [FF F8 00 .. 00]. *)
Example EncodePCM_two_frames :
  Float64store 1%float = 0x3FF0000000000000 /\
  Float64store (-2)%float = 0xC000000000000000 /\
  EncodePCM [Float64store 1%float; Float64store (-2)%float; 0xFFF8000000000000] =
  [63; 240; 0; 0; 0; 0; 0; 0; 192; 0; 0; 0; 0; 0; 0; 0;
   255; 248; 0; 0; 0; 0; 0; 0].
Proof. repeat split; reflexivity. Qed.

(** A buffer of values: every value is stored in some word, and decoding
    the buffer gives words that stand for the same values. *)
Lemma EncodePCM_values (vs : list float64) :
  option_map (map Float64value) (DecodePCM (EncodePCM (map Float64store vs))) =
  Some vs.
Proof.
  rewrite DecodePCM_EncodePCM.
  - cbn [option_map]. rewrite map_map. f_equal.
    rewrite <- (map_id vs) at 2. apply map_ext. intros v. apply Float64value_store.
  - apply Forall_forall. intros w Hin. apply in_map_iff in Hin.
    destruct Hin as (v & <- & _). apply Float64store_range.
Qed.

(** * [float64] arithmetic on integers below [2^53] *)

Lemma iter_pos_nat {A : Type} (f : A -> A) (n : positive) : forall x,
  iter_pos f n x = Nat.iter (Pos.to_nat n) f x.
Proof.
  induction n as [n IH|n IH|]; intros x; cbn [iter_pos].
  - rewrite !IH, Pos2Nat.inj_xI. 
    replace (S (2 * Pos.to_nat n))%nat with (Pos.to_nat n + (Pos.to_nat n + 1))%nat by lia.
    rewrite !Nat.iter_add. reflexivity.
  - rewrite !IH, Pos2Nat.inj_xO.
    replace (2 * Pos.to_nat n)%nat with (Pos.to_nat n + Pos.to_nat n)%nat by lia.
    rewrite Nat.iter_add. reflexivity.
  - reflexivity.
Qed.

Lemma shr_1_exact (n : nat) : forall c M : positive,
  Z.pos M = Z.pos c * 2 ^ Z.of_nat n ->
  Nat.iter n shr_1 (exact_record M) = exact_record c.
Proof.
  induction n as [|n IH]; intros c M HM.
  - change (2 ^ Z.of_nat 0) with 1 in HM. rewrite Z.mul_1_r in HM.
    injection HM as ->. reflexivity.
  - rewrite Nat.iter_succ_r.
    rewrite Nat2Z.inj_succ, Z.pow_succ_r in HM by lia.
    destruct M as [M|M|]; try lia.
    cbn [exact_record shr_1 orb]. apply IH. lia.
Qed.

Lemma shift_xO (m k : positive) : Z.pos (Pos.iter xO m k) = Z.pos m * 2 ^ Z.pos k.
Proof.
  induction k as [|k IH] using Pos.peano_ind.
  - change (Pos.iter xO m 1) with (m~0)%positive. change (2 ^ 1) with 2. lia.
  - rewrite Pos.iter_succ, Pos2Z.inj_succ, Z.pow_succ_r by lia.
    rewrite Pos2Z.inj_xO, IH. ring.
Qed.

Lemma size_bounds (M : positive) :
  2 ^ Z.pos (Pos.size M) <= 2 * Z.pos M /\ Z.pos M < 2 ^ Z.pos (Pos.size M).
Proof.
  pose proof (Pos.size_gt M) as Hgt. pose proof (Pos.size_le M) as Hle.
  apply Pos2Z.pos_lt_pos in Hgt. apply Pos2Z.pos_le_pos in Hle.
  rewrite Pos2Z.inj_pow in Hgt, Hle.
  change (Z.pos M~0) with (2 * Z.pos M) in Hle. split; assumption.
Qed.

Lemma digits_unique (M : positive) (d : Z) :
  2 ^ (d - 1) <= Z.pos M < 2 ^ d -> Z.pos (digits2_pos M) = d.
Proof.
  intros [Hlo Hhi]. rewrite digits2_size.
  destruct (size_bounds M) as [Hle Hgt].
  set (sz := Z.pos (Pos.size M)) in *.
  assert (0 < sz) by (unfold sz; lia).
  assert (0 < d).
  { destruct (Z.lt_ge_cases 0 d) as [|Hd0]; [assumption|].
    destruct (Z.eq_dec d 0) as [->|Hne].
    - change (2 ^ 0) with 1 in Hhi. lia.
    - rewrite (Z.pow_neg_r 2 d) in Hhi by lia. lia. }
  assert (d - 1 < sz).
  { apply (Z.pow_lt_mono_r_iff 2); lia. }
  assert (sz < d + 1).
  { apply (Z.pow_lt_mono_r_iff 2); [lia|lia|].
    rewrite Z.pow_add_r by lia. change (2 ^ 1) with 2. lia. }
  lia.
Qed.

Lemma fexp53 d : -1021 <= d -> fexp prec emax d = d - 53.
Proof. unfold fexp, SpecFloat.emin, prec, emax. lia. Qed.

(** A mantissa of exactly 53 bits with an exponent in range is left as it
    is by the rounding of [binary_round_aux]. *)
Lemma round_aux_canonical (sx : bool) (mz : positive) (ez : Z) :
  2 ^ 52 <= Z.pos mz < 2 ^ 53 -> -1074 <= ez <= 971 ->
  forall M e,
  shr_fexp prec emax (Z.pos M) e loc_Exact = (exact_record mz, ez) ->
  binary_round_aux prec emax sx (Z.pos M) e loc_Exact = S754_finite sx mz ez.
Proof.
  intros Hmz Hez M e HM. unfold binary_round_aux. rewrite HM.
  cbn [exact_record shr_m loc_of_shr_record round_nearest_even].
  assert (Hd : Z.pos (digits2_pos mz) = 53) by (apply digits_unique; exact Hmz).
  unfold shr_fexp. cbn [Zdigits2]. rewrite Hd.
  unfold fexp, SpecFloat.emin, prec, emax.
  replace (Z.max (53 + ez - 53) (3 - 1024 - 53) - ez) with 0 by lia.
  cbn [shr shr_record_of_loc shr_m].
  destruct (Z.leb_spec ez (1024 - 53)); [reflexivity|lia].
Qed.

(** Rounding the integer [c < 2^53], given as [M * 2^-K], is exact: the
    result has the mantissa [c] shifted to 53 bits. *)
Lemma binary_round_exact (sx : bool) (M : positive) (K c d : Z) :
  0 <= K -> Z.pos M = c * 2 ^ K -> 2 ^ (d - 1) <= c < 2 ^ d -> 0 < d <= 53 ->
  binary_round prec emax sx M (- K) =
  S754_finite sx (Z.to_pos (c * 2 ^ (53 - d))) (d - 53).
Proof.
  intros HK HM Hc Hd.
  assert (Hc0 : 0 < c) by (pose proof (Z.pow_pos_nonneg 2 (d - 1)); lia).
  assert (HdM : Z.pos (digits2_pos M) = d + K).
  { apply digits_unique. rewrite HM.
    replace (d + K - 1) with (d - 1 + K) by lia. rewrite !Z.pow_add_r by lia.
    pose proof (Z.pow_pos_nonneg 2 K). nia. }
  set (mz := Z.to_pos (c * 2 ^ (53 - d))).
  assert (Hmz : Z.pos mz = c * 2 ^ (53 - d)).
  { unfold mz. rewrite Z2Pos.id; [reflexivity|].
    pose proof (Z.pow_pos_nonneg 2 (53 - d)). nia. }
  assert (Hmz_range : 2 ^ 52 <= Z.pos mz < 2 ^ 53).
  { assert (E52 : 2 ^ 52 = 2 ^ (d - 1) * 2 ^ (53 - d)).
    { rewrite <- Z.pow_add_r by lia. f_equal. lia. }
    assert (E53 : 2 ^ 53 = 2 ^ d * 2 ^ (53 - d)).
    { rewrite <- Z.pow_add_r by lia. f_equal. lia. }
    rewrite Hmz, E52, E53.
    pose proof (Z.pow_pos_nonneg 2 (53 - d)). nia. }
  unfold binary_round. rewrite HdM.
  replace (d + K + - K) with d by lia. rewrite fexp53 by lia.
  unfold shl_align.
  destruct (d - 53 - - K) as [|k|k] eqn:Hk.
  - (* the mantissa has 53 bits already *)
    apply round_aux_canonical; [exact Hmz_range|lia|].
    unfold shr_fexp. cbn [Zdigits2]. rewrite HdM.
    replace (d + K + - K) with d by lia. rewrite fexp53 by lia.
    rewrite Hk. cbn [shr shr_record_of_loc].
    assert (M = mz) as ->.
    { apply Pos2Z.inj. rewrite HM, Hmz. f_equal. f_equal. lia. }
    f_equal. lia.
  - (* too many bits: the shift to the right drops zeros only *)
    apply round_aux_canonical; [exact Hmz_range|lia|].
    unfold shr_fexp. cbn [Zdigits2]. rewrite HdM.
    replace (d + K + - K) with d by lia. rewrite fexp53 by lia.
    rewrite Hk. cbn [shr shr_record_of_loc].
    rewrite iter_pos_nat. fold (exact_record M).
    rewrite (shr_1_exact (Pos.to_nat k) mz M).
    + f_equal. lia.
    + rewrite positive_nat_Z, HM, Hmz, <- Z.mul_assoc, <- Z.pow_add_r by lia.
      f_equal. f_equal. lia.
  - (* too few bits: shift to the left first *)
    apply round_aux_canonical; [exact Hmz_range|lia|].
    unfold shr_fexp. cbn [Zdigits2].
    assert (Hs : Z.pos (Pos.iter xO M k) = Z.pos mz).
    { rewrite shift_xO, HM, Hmz, <- Z.mul_assoc, <- Z.pow_add_r by lia.
      f_equal. f_equal. lia. }
    apply Pos2Z.inj in Hs. rewrite Hs.
    rewrite (digits_unique mz 53) by exact Hmz_range.
    unfold fexp, SpecFloat.emin, prec, emax.
    replace (Z.max (53 + (d - 53) - 53) (3 - 1024 - 53) - (d - 53)) with 0 by lia.
    reflexivity.
Qed.

Lemma binary_round_exact_neg (sx : bool) (M : positive) (e c d : Z) :
  e <= 0 -> Z.pos M = c * 2 ^ (- e) -> 2 ^ (d - 1) <= c < 2 ^ d -> 0 < d <= 53 ->
  binary_round prec emax sx M e =
  S754_finite sx (Z.to_pos (c * 2 ^ (53 - d))) (d - 53).
Proof.
  intros He HM Hc Hd. rewrite <- (Z.opp_involutive e) at 1.
  apply binary_round_exact; try assumption. lia.
Qed.

Lemma int_digits c :
  0 < c < 2 ^ 53 ->
  let d := Z.log2 c + 1 in
  2 ^ (d - 1) <= c < 2 ^ d /\ 0 < d <= 53.
Proof.
  intros [H0 H53] d. unfold d.
  pose proof (Z.log2_spec c H0) as Hs. pose proof (Z.log2_nonneg c).
  replace (Z.log2 c + 1 - 1) with (Z.log2 c) by lia.
  split; [exact Hs|]. split; [lia|].
  assert (Z.log2 c < 53) by (apply Z.log2_lt_pow2; lia). lia.
Qed.

Lemma int_mantissa c :
  0 < c < 2 ^ 53 ->
  let d := Z.log2 c + 1 in
  Z.pos (Z.to_pos (c * 2 ^ (53 - d))) = c * 2 ^ (53 - d) /\
  2 ^ 52 <= c * 2 ^ (53 - d) < 2 ^ 53.
Proof.
  intros Hc d. destruct (int_digits c Hc) as [Hb Hd]. fold d in Hb, Hd.
  assert (E52 : 2 ^ 52 = 2 ^ (d - 1) * 2 ^ (53 - d)).
  { rewrite <- Z.pow_add_r by lia. f_equal. lia. }
  assert (E53 : 2 ^ 53 = 2 ^ d * 2 ^ (53 - d)).
  { rewrite <- Z.pow_add_r by lia. f_equal. lia. }
  pose proof (Z.pow_pos_nonneg 2 (53 - d)).
  split; [rewrite Z2Pos.id; [reflexivity|nia]|].
  rewrite E52, E53. nia.
Qed.

Lemma int_SF_valid c : c <> 0 -> small c -> valid_binary (int_SF c) = true.
Proof.
  unfold small. intros Hc0 Hc.
  assert (Ha : 0 < Z.abs c < 2 ^ 53) by lia.
  destruct (int_digits _ Ha) as [Hb Hd].
  destruct (int_mantissa _ Ha) as [Hm Hr].
  unfold int_SF. cbn [SpecFloat.valid_binary]. unfold bounded, canonical_mantissa.
  rewrite (digits_unique _ 53) by (rewrite Hm; exact Hr).
  unfold fexp, SpecFloat.emin, prec, emax.
  apply andb_true_iff. split; [apply Z.eqb_eq|apply Z.leb_le]; lia.
Qed.

Lemma binary_normalize_exact (m e c : Z) :
  e <= 0 -> m = c * 2 ^ (- e) -> c <> 0 -> small c ->
  binary_normalize prec emax m e false = int_SF c.
Proof.
  unfold small. intros He Hm Hc0 Hc.
  assert (Ha : 0 < Z.abs c < 2 ^ 53) by lia.
  destruct (int_digits _ Ha) as [Hb Hd].
  pose proof (Z.pow_pos_nonneg 2 (- e)) as HP.
  unfold int_SF. destruct m as [|M|M]; cbn [binary_normalize].
  - nia.
  - assert (0 < c) by nia.
    replace (c <? 0) with false by (symmetry; apply Z.ltb_ge; lia).
    apply binary_round_exact_neg; try assumption. rewrite Z.abs_eq by lia. exact Hm.
  - assert (c < 0) by nia.
    replace (c <? 0) with true by (symmetry; apply Z.ltb_lt; lia).
    apply binary_round_exact_neg; try assumption.
    rewrite Z.abs_neq by lia. lia.
Qed.

Lemma float64_of_int_0 : Prim2SF (float64_of_int 0) = S754_zero false.
Proof. reflexivity. Qed.

Lemma float64_of_int_exact c :
  c <> 0 -> small c -> Prim2SF (float64_of_int c) = int_SF c.
Proof.
  intros Hc0 Hc. unfold float64_of_int.
  rewrite (binary_normalize_exact c 0 c); try assumption; try lia.
  apply Prim2SF_SF2Prim. now apply int_SF_valid.
Qed.

Lemma shl_align_value m e e' :
  e' <= e ->
  Z.pos (fst (shl_align m e e')) = Z.pos m * 2 ^ (e - e').
Proof.
  intros H. unfold shl_align.
  destruct (e' - e) as [|k|k] eqn:Hk; try lia; cbn [fst].
  - replace (e - e') with 0 by lia. lia.
  - rewrite shift_xO. f_equal. f_equal. lia.
Qed.

Lemma cond_Zopp_abs c P : cond_Zopp (c <? 0) (Z.abs c * P) = c * P.
Proof. unfold cond_Zopp. destruct (Z.ltb_spec c 0); lia. Qed.

(** Adding two integers is exact as long as they and their sum stay
    below [2^53] in absolute value. *)
Lemma float64_add_exact a p :
  small a -> small p -> small (a + p) ->
  (float64_of_int a + float64_of_int p)%float = float64_of_int (a + p).
Proof.
  intros Ha Hp Hsum. apply Prim2SF_inj. rewrite add_spec.
  destruct (Z.eq_dec a 0) as [->|Ha0].
  { rewrite float64_of_int_0. destruct (Z.eq_dec p 0) as [->|Hp0]; [reflexivity|].
    rewrite Z.add_0_l, float64_of_int_exact by assumption. reflexivity. }
  destruct (Z.eq_dec p 0) as [->|Hp0].
  { rewrite float64_of_int_0, Z.add_0_r, float64_of_int_exact by assumption.
    reflexivity. }
  rewrite (float64_of_int_exact a), (float64_of_int_exact p) by assumption.
  unfold small in *.
  destruct (int_digits (Z.abs a) ltac:(lia)) as [Hba Hda].
  destruct (int_digits (Z.abs p) ltac:(lia)) as [Hbp Hdp].
  destruct (int_mantissa (Z.abs a) ltac:(lia)) as [Hma Hra].
  destruct (int_mantissa (Z.abs p) ltac:(lia)) as [Hmp Hrp].
  unfold SF64add, int_SF. cbn [SFadd].
  set (da := Z.log2 (Z.abs a) + 1) in *. set (dp := Z.log2 (Z.abs p) + 1) in *.
  set (ez := Z.min (da - 53) (dp - 53)).
  set (m := _ + _).
  assert (Hm : m = (a + p) * 2 ^ (- ez)).
  { unfold m.
    rewrite !shl_align_value by lia.
    rewrite Hma, Hmp, <- !Z.mul_assoc, <- !Z.pow_add_r by lia.
    replace (53 - da + (da - 53 - ez)) with (- ez) by lia.
    replace (53 - dp + (dp - 53 - ez)) with (- ez) by lia.
    rewrite !cond_Zopp_abs. ring. }
  destruct (Z.eq_dec (a + p) 0) as [H0|H0].
  - rewrite H0 in *. rewrite Z.mul_0_l in Hm. rewrite Hm. reflexivity.
  - rewrite float64_of_int_exact by assumption.
    apply (binary_normalize_exact m ez (a + p)); try assumption. lia.
Qed.

(** Exponent first, then mantissa: the order of the magnitudes. *)
Lemma magnitude_compare x y :
  0 < x < 2 ^ 53 -> 0 < y < 2 ^ 53 ->
  let dx := Z.log2 x + 1 in
  let dy := Z.log2 y + 1 in
  match dx - 53 ?= dy - 53 with
  | Lt => Lt
  | Gt => Gt
  | Eq => Pos.compare_cont Eq (Z.to_pos (x * 2 ^ (53 - dx))) (Z.to_pos (y * 2 ^ (53 - dy)))
  end = (x ?= y).
Proof.
  intros Hx Hy dx dy.
  destruct (int_digits x Hx) as [Hbx Hdx]. destruct (int_digits y Hy) as [Hby Hdy].
  destruct (int_mantissa x Hx) as [Hmx _]. destruct (int_mantissa y Hy) as [Hmy _].
  fold dx in Hbx, Hdx, Hmx. fold dy in Hby, Hdy, Hmy.
  destruct (Z.compare_spec (dx - 53) (dy - 53)) as [He|He|He].
  - change (Pos.compare_cont Eq ?u ?v) with (Z.pos u ?= Z.pos v).
    rewrite Hmx, Hmy. replace dy with dx by lia.
    pose proof (Z.pow_pos_nonneg 2 (53 - dx)) as HP.
    destruct (Z.compare_spec x y) as [->|Hlt|Hgt].
    + apply Z.compare_refl.
    + apply Z.compare_lt_iff. nia.
    + apply Z.compare_gt_iff. nia.
  - symmetry. apply Z.compare_lt_iff.
    apply Z.lt_le_trans with (2 ^ dx); [lia|].
    apply Z.le_trans with (2 ^ (dy - 1)); [|lia].
    apply Z.pow_le_mono_r; lia.
  - symmetry. apply Z.compare_gt_iff.
    apply Z.lt_le_trans with (2 ^ dy); [lia|].
    apply Z.le_trans with (2 ^ (dx - 1)); [|lia].
    apply Z.pow_le_mono_r; lia.
Qed.

Lemma int_SF_compare a b :
  a <> 0 -> small a -> b <> 0 -> small b ->
  SFcompare (int_SF a) (int_SF b) = Some (a ?= b).
Proof.
  unfold small. intros Ha0 Ha Hb0 Hb.
  pose proof (magnitude_compare (Z.abs a) (Z.abs b) ltac:(lia) ltac:(lia)) as Hmag.
  cbv zeta in Hmag.
  unfold int_SF. cbn [SFcompare]. f_equal.
  destruct (Z.ltb_spec a 0) as [Han|Hap], (Z.ltb_spec b 0) as [Hbn|Hbp].
  - transitivity (CompOpp (Z.abs a ?= Z.abs b)).
    + rewrite <- Hmag. destruct (_ ?= _); reflexivity.
    + rewrite <- Z.compare_antisym. rewrite !Z.abs_neq by lia.
      apply Z.compare_opp.
  - symmetry. apply Z.compare_lt_iff. lia.
  - symmetry. apply Z.compare_gt_iff. lia.
  - rewrite Hmag, !Z.abs_eq by lia. reflexivity.
Qed.

Lemma float64_of_int_SF c :
  small c ->
  Prim2SF (float64_of_int c) = if c =? 0 then S754_zero false else int_SF c.
Proof.
  intros Hc. destruct (Z.eqb_spec c 0) as [->|Hc0]; [reflexivity|].
  now apply float64_of_int_exact.
Qed.

(** On integers below [2^53] in absolute value the comparison of
    [float64] is the one of the integers. *)
Lemma float64_ltb_exact a b :
  small a -> small b ->
  (float64_of_int a <? float64_of_int b)%float = (a <? b).
Proof.
  intros Ha Hb. rewrite ltb_spec, !float64_of_int_SF by assumption.
  unfold SFltb, Z.ltb.
  destruct (Z.eqb_spec a 0) as [->|Ha0], (Z.eqb_spec b 0) as [->|Hb0].
  - reflexivity.
  - unfold int_SF. cbn [SFcompare].
    destruct (Z.ltb_spec b 0), (Z.compare_spec 0 b); try lia; reflexivity.
  - unfold int_SF. cbn [SFcompare].
    destruct (Z.ltb_spec a 0), (Z.compare_spec a 0); try lia; reflexivity.
  - rewrite int_SF_compare by assumption. reflexivity.
Qed.

(** Converting such an integer to [float64] and back gives it again. *)
Lemma Duration_of_float64_exact a :
  small a -> Duration_of_float64 (float64_of_int a) = a.
Proof.
  intros Ha. unfold Duration_of_float64, Int64.min_int, Int64.max_int.
  rewrite float64_of_int_SF by assumption.
  destruct (Z.eqb_spec a 0) as [->|Ha0]; [reflexivity|].
  unfold small in Ha.
  destruct (int_digits (Z.abs a) ltac:(lia)) as [Hba Hda].
  destruct (int_mantissa (Z.abs a) ltac:(lia)) as [Hma _].
  unfold int_SF. set (d := Z.log2 (Z.abs a) + 1) in *. cbv zeta.
  rewrite Hma, Z.shiftl_div_pow2 by lia.
  replace (- (d - 53)) with (53 - d) by lia.
  rewrite Z.div_mul by (apply Z.pow_nonzero; lia).
  destruct (Z.ltb_spec a 0);
    destruct (Z.leb_spec (- 2 ^ 63) (- Z.abs a)), (Z.leb_spec (- Z.abs a) (2 ^ 63 - 1)),
             (Z.leb_spec (- 2 ^ 63) (Z.abs a)), (Z.leb_spec (Z.abs a) (2 ^ 63 - 1));
    cbn [andb]; lia.
Qed.

(** ** The sampling period *)

Lemma all_from_spec (P : Z -> bool) (n : nat) : forall k,
  all_from n k P = true ->
  forall j, k <= j < k + Z.of_nat n -> P j = true.
Proof.
  induction n as [|n IH]; intros k H j Hj; [lia|].
  cbn [all_from] in H. apply andb_true_iff in H as [Hk Hrest].
  destruct (Z.eq_dec j k) as [->|Hne]; [exact Hk|].
  apply (IH (k + 1) Hrest). lia.
Qed.

(** Of two numbers whose product is [10^9] one is at most 31622. *)
Lemma divisors_checked : all_from (Z.to_nat 31622) 1 divisor_ok = true.
Proof. vm_compute. reflexivity. Qed.

Lemma divisor_ok_small k : 1 <= k <= 31622 -> divisor_ok k = true.
Proof.
  intros Hk. apply (all_from_spec divisor_ok (Z.to_nat 31622) 1 divisors_checked).
  rewrite Z2Nat.id; lia.
Qed.

(** For a rate that divides [10^9] the period is computed exactly. *)
Lemma step_exact rate :
  0 < rate -> Second mod rate = 0 ->
  (float64_of_int Second / float64_of_int rate)%float =
  float64_of_int (Second / rate).
Proof.
  intros Hr Hmod. apply FloatAxioms.Leibniz.eqb_spec. fold (step_ok rate).
  assert (Hq : Second = rate * (Second / rate)).
  { apply Z.div_exact; [lia|exact Hmod]. }
  set (q := Second / rate) in *.
  assert (Hq0 : 0 < q) by (unfold Second in Hq; nia).
  destruct (Z.le_gt_cases rate 31622) as [Hle|Hgt].
  - pose proof (divisor_ok_small rate ltac:(lia)) as H.
    unfold divisor_ok in H. rewrite Hmod in H. cbn [Z.eqb] in H.
    apply andb_true_iff in H. apply H.
  - assert (Hqs : q <= 31622) by (unfold Second in Hq; nia).
    pose proof (divisor_ok_small q ltac:(lia)) as H.
    unfold divisor_ok in H.
    assert (Hmq : Second mod q = 0).
    { rewrite Hq at 1. apply Z.mod_mul. lia. }
    assert (Hdq : Second / q = rate).
    { rewrite Hq at 1. apply Z.div_mul. lia. }
    rewrite Hmq, Hdq in H. cbn [Z.eqb] in H.
    apply andb_true_iff in H. apply H.
Qed.

(** * [Sample] *)

Section ExactWindow.
(** A signal that returns a value at every offset. *)
Variable s : Signal.
Variable f : Duration -> float64.
Hypothesis s_total : forall x, At s x = Ok (f x).

(** A period [p] of whole nanoseconds and a bound [B], all the offsets
    the loop can reach staying below [2^53]. *)
Variables p B : Z.
Hypothesis p_pos : 0 < p.
Hypothesis p_small : small p.

Lemma samples_from_S x r :
  samples_from f p x (S r) = f x :: samples_from f p (x + p) r.
Proof.
  unfold samples_from. cbn [seq map]. f_equal.
  - f_equal. lia.
  - rewrite <- seq_shift, map_map. apply map_ext.
    intros k. f_equal. lia.
Qed.

(** [r] more iterations: the offsets [x, x+p, ...] below [B], then the
    first one at or above it. *)
Lemma Sample_loop_exact (r : nat) : forall x frames fuel,
  (r < fuel)%nat ->
  small x -> small B -> small (x + Z.of_nat r * p) ->
  B <= x + Z.of_nat r * p ->
  ((0 < r)%nat -> x + (Z.of_nat r - 1) * p < B) ->
  Sample_loop fuel s (float64_of_int x) (float64_of_int B) (float64_of_int p)
    frames = Some (Ok (frames ++ samples_from f p x r)).
Proof.
  induction r as [|r IH]; intros x frames fuel Hfuel Hx HB Hend Hhi Hlo;
    (destruct fuel as [|fuel]; [lia|]); cbn [Sample_loop];
    rewrite float64_ltb_exact by assumption.
  - destruct (Z.ltb_spec x B); [lia|].
    unfold samples_from. cbn [seq map]. now rewrite app_nil_r.
  - specialize (Hlo ltac:(lia)).
    destruct (Z.ltb_spec x B); [|nia].
    rewrite Duration_of_float64_exact, s_total by assumption.
    assert (Hxp : small (x + p)).
    { unfold small in *. nia. }
    rewrite float64_add_exact by assumption.
    rewrite (IH (x + p)); try assumption; try lia.
    + rewrite samples_from_S, <- app_assoc. reflexivity.
    + replace (x + p + Z.of_nat r * p) with (x + Z.of_nat (S r) * p) by lia.
      exact Hend.
Qed.
End ExactWindow.

Lemma sample_count_spec to p :
  0 < p ->
  let n := Z.of_nat (sample_count to p) in
  (to <= 0 -> n = 0) /\ (0 < to -> (n - 1) * p < to <= n * p).
Proof.
  intros Hp n. unfold n, sample_count.
  pose proof (Z.div_mod (to + p - 1) p ltac:(lia)) as Hdm.
  pose proof (Z.mod_pos_bound (to + p - 1) p Hp) as Hmb.
  split; intros Hto.
  - assert ((to + p - 1) / p <= 0) by nia.
    lia.
  - assert (0 < (to + p - 1) / p) by nia.
    rewrite Z2Nat.id by lia. nia.
Qed.

(** The whole of [Sample] when the arithmetic is exact: a positive rate
    that divides [10^9], and a window within [2^52] nanoseconds of 0. *)
Lemma Sample_exact_window (s : Signal) (f : Duration -> float64)
  (rate : Z) (from to : Duration) (fuel : nat) :
  (forall x, At s x = Ok (f x)) ->
  0 < rate -> Second mod rate = 0 ->
  Z.abs from <= 2 ^ 52 -> Z.abs (from + to) <= 2 ^ 52 ->
  (sample_count to (Second / rate) < fuel)%nat ->
  Sample fuel s rate from to =
  Some (Ok (samples_from f (Second / rate) from (sample_count to (Second / rate)))).
Proof.
  intros Hs Hr Hmod Hfrom Hto Hfuel. unfold Sample.
  rewrite step_exact by assumption.
  assert (Hq : Second = rate * (Second / rate)).
  { apply Z.div_exact; [lia|exact Hmod]. }
  set (p := Second / rate) in *.
  assert (Hp : 0 < p <= Second) by (unfold Second in *; nia).
  rewrite add_small by (unfold Int64.in_range, Int64.min_int, Int64.max_int; lia).
  destruct (sample_count_spec to p ltac:(lia)) as [Hneg Hpos].
  set (n := sample_count to p) in *.
  assert (Hps : small p) by (unfold small, Second in *; lia).
  apply (Sample_loop_exact s f Hs p (from + to) ltac:(lia) Hps n from [] fuel);
    unfold small, Second in *; lia.
Qed.

Lemma samples_from_length f p x r : List.length (samples_from f p x r) = r.
Proof. unfold samples_from. now rewrite length_map, length_seq. Qed.

Lemma samples_from_nth f p x r i :
  (i < r)%nat -> nth_error (samples_from f p x r) i = Some (f (x + Z.of_nat i * p)).
Proof.
  intros Hi. unfold samples_from.
  rewrite nth_error_map, nth_error_seq.
  destruct (Nat.ltb_spec i r); [reflexivity|lia].
Qed.

(** The ceiling of [length * rate / 10^9] counts the offsets [i * p] below
    [length], [p] being the period [10^9 / rate]. *)
Lemma sample_count_ceiling length rate :
  0 < rate -> Second mod rate = 0 -> 0 <= length ->
  Z.of_nat (sample_count length (Second / rate)) =
  (length * rate + Second - 1) / Second.
Proof.
  intros Hr Hmod Hlen.
  assert (Hq : Second = rate * (Second / rate)).
  { apply Z.div_exact; [lia|exact Hmod]. }
  set (p := Second / rate) in *.
  assert (Hp : 0 < p) by (unfold Second in Hq; nia).
  destruct (sample_count_spec length p Hp) as [Hneg Hpos].
  set (n := Z.of_nat (sample_count length p)) in *.
  destruct (Z.eq_dec length 0) as [->|Hne].
  - rewrite (Hneg ltac:(lia)). symmetry. apply Z.div_small.
    unfold Second. lia.
  - specialize (Hpos ltac:(lia)).
    apply (Z.div_unique _ _ _ (length * rate + Second - 1 - Second * n)); [|ring].
    left. rewrite Hq. nia.
Qed.

(** C5 (amended: the ceiling, for exact periods).  For a signal that
    returns a value everywhere, a positive rate that divides [10^9] (the
    period is then a whole number [p] of nanoseconds) and a length from 0 to
    [2^52] ns, [Sample s rate 0 length] returns one sample for every
    [i >= 0] with [i * p < length]: the ceiling of [length * rate / 1s] of
    them, the [i]-th being [s] at [i * p].  Fuel above that count is
    enough for the loop to end. *)
Theorem Sample_cardinality (s : Signal) (f : Duration -> float64)
  (rate : Z) (length : Duration) (fuel : nat) :
  (forall x, At s x = Ok (f x)) ->
  0 < rate -> Second mod rate = 0 -> 0 <= length <= 2 ^ 52 ->
  let n := (length * rate + Second - 1) / Second in
  (Z.to_nat n < fuel)%nat ->
  exists frames,
    Sample fuel s rate 0 length = Some (Ok frames) /\
    Z.of_nat (List.length frames) = n /\
    forall i, (i < Z.to_nat n)%nat ->
      nth_error frames i = Some (f (Z.of_nat i * (Second / rate))).
Proof.
  intros Hs Hr Hmod Hlen n Hfuel.
  pose proof (sample_count_ceiling length rate Hr Hmod ltac:(lia)) as Hn.
  fold n in Hn.
  exists (samples_from f (Second / rate) 0 (sample_count length (Second / rate))).
  split; [|split].
  - apply Sample_exact_window; try assumption; lia.
  - now rewrite samples_from_length.
  - intros i Hi. rewrite samples_from_nth by lia. reflexivity.
Qed.

Lemma Sample_cardinality_witness :
  exists frames,
    Sample 5 (Constant 1) 8 0 500000000 = Some (Ok frames) /\
    Z.of_nat (List.length frames) = (500000000 * 8 + Second - 1) / Second /\
    forall i, (i < Z.to_nat ((500000000 * 8 + Second - 1) / Second))%nat ->
      nth_error frames i = Some 1%float.
Proof.
  apply (Sample_cardinality (Constant 1) (fun _ => 1%float) 8 500000000 5).
  - reflexivity.
  - reflexivity.
  - reflexivity.
  - split; vm_compute; congruence.
  - vm_compute. lia.
Defined.

(** The floor of the claim is the right count exactly when the length is a
    whole number of periods. *)
Lemma sample_count_floor length rate :
  0 < rate -> Second mod rate = 0 -> 0 <= length ->
  length mod (Second / rate) = 0 ->
  (length * rate + Second - 1) / Second = length * rate / Second.
Proof.
  intros Hr Hmod Hlen Hmul.
  assert (Hq : Second = rate * (Second / rate)).
  { apply Z.div_exact; [lia|exact Hmod]. }
  set (p := Second / rate) in *.
  assert (Hp : 0 < p) by (unfold Second in Hq; nia).
  assert (Hk : length = p * (length / p)).
  { apply Z.div_exact; [lia|exact Hmul]. }
  set (k := length / p) in *.
  assert (Hlr : length * rate = k * Second) by (rewrite Hk, Hq; ring).
  rewrite Hlr, Z.div_mul by (unfold Second; lia).
  symmetry. apply (Z.div_unique _ _ _ (Second - 1)); [|ring].
  left. unfold Second. lia.
Qed.

(** C5 as stated fails: at one sample per second a window of 1.5 s has
    the two samples at 0 s and 1 s, and the floor of 1.5 is 1. *)
Lemma Sample_cardinality_not_floor :
  Sample 5 (fun x => Ok (float64_of_int x)) 1 0 1500000000 =
    Some (Ok [0%float; 1000000000%float]) /\
  1500000000 * 1 / Second = 1.
Proof. split; reflexivity. Qed.

(** When the rate does not divide [10^9] the accumulated period drifts:
    at 49 samples per second a window of one second has 50 samples, the
    last one at 999999999 ns, and the fifth at 81632653 ns, not at
    [4 * (10^9 / 49)]. *)
Example Sample_drift :
  option_map (fun r => match r with
                       | Ok frames => (List.length frames, nth_error frames 4, nth_error frames 49)
                       | Panic _ => (O, None, None)
                       end)
    (Sample 60 (fun x => Ok (float64_of_int x)) 49 0 Second) =
  Some (50%nat, Some 81632653%float, Some 999999999%float) /\
  4 * (Second / 49) = 81632652.
Proof. split; reflexivity. Qed.

(** The scenario of the specification: rate 8 over half a second. *)
Example Sample_rate_8 :
  Sample 5 (fun x => Ok (float64_of_int x)) 8 0 500000000 =
  Some (Ok [0%float; 125000000%float; 250000000%float; 375000000%float]).
Proof. reflexivity. Qed.

(** ** Arguments outside the contract *)

Lemma float64_of_int_finite c :
  small c -> exists x, Prim2SF (float64_of_int c) = x /\
    (x = S754_zero false \/ exists sg m e, x = S754_finite sg m e).
Proof.
  intros Hc. rewrite float64_of_int_SF by assumption.
  destruct (c =? 0); eexists; split; try reflexivity; [now left|right].
  unfold int_SF. eauto.
Qed.

(** With a rate of zero the period is [+Inf]: the second offset already
    is past any bound. *)
Lemma Sample_rate_zero (s : Signal) (f : Duration -> float64)
  (from to : Duration) (fuel : nat) :
  (forall x, At s x = Ok (f x)) ->
  Z.abs from <= 2 ^ 52 -> Z.abs (from + to) <= 2 ^ 52 -> 0 < to ->
  (1 < fuel)%nat ->
  Sample fuel s 0 from to = Some (Ok [f from]).
Proof.
  intros Hs Hfrom Hto Hpos Hfuel. unfold Sample.
  rewrite add_small by (unfold Int64.in_range, Int64.min_int, Int64.max_int; lia).
  change (float64_of_int Second / float64_of_int 0)%float with infinity.
  assert (Hsf : small from) by (unfold small; lia).
  assert (Hsb : small (from + to)) by (unfold small; lia).
  destruct fuel as [|[|fuel]]; try lia. cbn [Sample_loop].
  rewrite float64_ltb_exact by assumption.
  destruct (Z.ltb_spec from (from + to)); [|lia].
  rewrite Duration_of_float64_exact, Hs by assumption.
  assert (Hinf : (float64_of_int from + infinity)%float = infinity).
  { apply Prim2SF_inj. rewrite add_spec.
    change (Prim2SF infinity) with (S754_infinity false).
    destruct (float64_of_int_finite from Hsf) as (x & -> & [->|(sg & m & e & ->)]);
      reflexivity. }
  rewrite Hinf, ltb_spec.
  change (Prim2SF infinity) with (S754_infinity false).
  destruct (float64_of_int_finite (from + to) Hsb)
    as (x & -> & [->|(sg & m & e & ->)]); reflexivity.
Qed.

(** With a length of zero or less the loop condition is false at once,
    whatever the rate. *)
Lemma Sample_empty_window (s : Signal) (rate : Z) (from to : Duration)
  (fuel : nat) :
  Z.abs from <= 2 ^ 52 -> Z.abs (from + to) <= 2 ^ 52 -> to <= 0 ->
  (0 < fuel)%nat ->
  Sample fuel s rate from to = Some (Ok []).
Proof.
  intros Hfrom Hto Hneg Hfuel. unfold Sample.
  rewrite add_small by (unfold Int64.in_range, Int64.min_int, Int64.max_int; lia).
  destruct fuel as [|fuel]; [lia|]. cbn [Sample_loop].
  rewrite float64_ltb_exact by (unfold small; lia).
  destruct (Z.ltb_spec from (from + to)); [lia|reflexivity].
Qed.

(** [Sample] has no failure of its own: on a signal that never panics
    the loop either goes on or returns the frames. *)
Lemma Sample_loop_no_panic (s : Signal) (f : Duration -> float64) :
  (forall x, At s x = Ok (f x)) ->
  forall fuel i bound step frames msg,
  Sample_loop fuel s i bound step frames <> Some (Panic msg).
Proof.
  intros Hs. induction fuel as [|fuel IH]; intros i bound step frames msg;
    cbn [Sample_loop]; [discriminate|].
  destruct (i <? bound)%float; [|discriminate].
  rewrite Hs. apply IH.
Qed.

(** C4 (amended: nothing is validated, nothing is rejected).  [Sample]
    checks none of its arguments.  For a signal that returns a value
    everywhere, no call of [Sample] fails, whatever the rate, the offset
    and the length.  When moreover the window lies within [2^52] ns of 0:
    - with a positive rate dividing [10^9], a starting offset of any sign
      and a length of any sign, the samples are those at
      [from + i * period] for the [i >= 0] with [i * period < to]: negative
      offsets are evaluated like any other;
    - with a length of zero or less the empty sequence is returned,
      whatever the rate, without evaluating the signal;
    - with rate 0 and a positive length the one sample at [from] is
      returned. *)
Theorem Sample_rejects_nothing (s : Signal) (f : Duration -> float64) :
  (forall x, At s x = Ok (f x)) ->
  (forall fuel rate from to msg,
      Sample fuel s rate from to <> Some (Panic msg)) /\
  (forall from to,
      Z.abs from <= 2 ^ 52 -> Z.abs (from + to) <= 2 ^ 52 ->
      (forall rate fuel,
          0 < rate -> Second mod rate = 0 ->
          (sample_count to (Second / rate) < fuel)%nat ->
          Sample fuel s rate from to =
          Some (Ok (samples_from f (Second / rate) from
                      (sample_count to (Second / rate))))) /\
      (to <= 0 -> forall rate fuel, (0 < fuel)%nat ->
          Sample fuel s rate from to = Some (Ok [])) /\
      (0 < to -> forall fuel, (1 < fuel)%nat ->
          Sample fuel s 0 from to = Some (Ok [f from]))).
Proof.
  intros Hs. split.
  - intros fuel rate from to msg. unfold Sample.
    now apply (Sample_loop_no_panic s f Hs).
  - intros from to Hfrom Hto. split; [|split].
    + intros rate fuel Hr Hmod Hfuel. now apply Sample_exact_window.
    + intros Hneg rate fuel Hfuel. now apply Sample_empty_window.
    + intros Hpos fuel Hfuel. now apply Sample_rate_zero.
Qed.

Lemma Sample_rejects_nothing_witness :
  (forall fuel rate from to msg,
      Sample fuel (Constant 1) rate from to <> Some (Panic msg)) /\
  (forall from to,
      Z.abs from <= 2 ^ 52 -> Z.abs (from + to) <= 2 ^ 52 ->
      (forall rate fuel,
          0 < rate -> Second mod rate = 0 ->
          (sample_count to (Second / rate) < fuel)%nat ->
          Sample fuel (Constant 1) rate from to =
          Some (Ok (samples_from (fun _ => 1%float) (Second / rate) from
                      (sample_count to (Second / rate))))) /\
      (to <= 0 -> forall rate fuel, (0 < fuel)%nat ->
          Sample fuel (Constant 1) rate from to = Some (Ok [])) /\
      (0 < to -> forall fuel, (1 < fuel)%nat ->
          Sample fuel (Constant 1) 0 from to = Some (Ok [1%float]))).
Proof.
  apply (Sample_rejects_nothing (Constant 1) (fun _ => 1%float)).
  reflexivity.
Defined.

(** C4 as stated fails: each of these calls returns samples, or none,
    and is not refused.  A negative offset: the signal is evaluated at
    -1 s and at 0.  A rate of zero: one sample.  A negative length: no
    sample, and no error either. *)
Lemma Sample_not_rejected :
  Sample 5 (fun x => Ok (float64_of_int x)) 1 (-1000000000) 2000000000 =
    Some (Ok [(-1000000000)%float; 0%float]) /\
  Sample 5 (fun x => Ok (float64_of_int x)) 0 0 Second = Some (Ok [0%float]) /\
  Sample 5 (fun x => Ok (float64_of_int x)) 1 0 (- Second) = Some (Ok []).
Proof. repeat split. Qed.

(** Why the window has to stay below [2^53] ns: there the [float64]
    counter no longer moves by a period of 1 ns, and the loop does not
    end, whatever the fuel. *)
Lemma Sample_stuck (s : Signal) (f : Duration -> float64) (fuel : nat) :
  (forall x, At s x = Ok (f x)) ->
  Sample fuel s Second (2 ^ 53) 10 = None.
Proof.
  intros Hs. unfold Sample.
  change (float64_of_int Second / float64_of_int Second)%float with 1%float.
  generalize (@nil float64).
  induction fuel as [|fuel IH]; intros frames; cbn [Sample_loop]; [reflexivity|].
  change (float64_of_int (2 ^ 53) <? float64_of_int (Int64.add (2 ^ 53) 10))%float
    with true.
  cbv iota. rewrite Hs.
  change (float64_of_int (2 ^ 53) + 1)%float with (float64_of_int (2 ^ 53)).
  apply IH.
Qed.

(** * More on [Sequence] *)

Lemma wrap_in_range z : Int64.in_range (Int64.wrap z).
Proof.
  unfold Int64.in_range, Int64.min_int, Int64.max_int, Int64.wrap.
  pose proof (Z.mod_pos_bound (z + 2 ^ 63) (2 ^ 64) ltac:(lia)). lia.
Qed.

(** Every running offset of the walk is an [int64]. *)
Lemma offsets_in_range signals : forall i,
  Int64.in_range i ->
  Int64.in_range (fold_left (fun acc s => Int64.add acc (fsDuration s)) signals i).
Proof.
  induction signals as [|s rest IH]; intros i Hi; cbn [fold_left]; [exact Hi|].
  apply IH. apply wrap_in_range.
Qed.

Lemma zero_in_range : Int64.in_range 0.
Proof. unfold Int64.in_range, Int64.min_int, Int64.max_int. lia. Qed.

(** The walk over two lists: through the first, then on from its end. *)
Lemma Sequence_walk_app l1 : forall l2 x i,
  Sequence_walk (l1 ++ l2) x i =
  match Sequence_find l1 x i with
  | Some s => At (fsSignal s) x
  | None =>
      Sequence_walk l2 x
        (fold_left (fun acc s => Int64.add acc (fsDuration s)) l1 i)
  end.
Proof.
  induction l1 as [|s rest IH]; intros l2 x i; cbn [app Sequence_walk Sequence_find fold_left];
    [reflexivity|].
  destruct ((i <=? x) && (x <? Int64.add i (fsDuration s))); [reflexivity|apply IH].
Qed.

Lemma sum_durations_nonneg signals :
  Forall (fun s => 0 <= fsDuration s) signals -> 0 <= sum_durations signals.
Proof.
  induction 1 as [|s rest Hs _ IH]; cbn [sum_durations fold_right]; [lia|].
  fold (sum_durations rest). lia.
Qed.

(** With non-negative durations whose exact sum fits, the offsets are the
    exact partial sums. *)
Lemma fold_durations_exact signals : forall a,
  Forall (fun s => 0 <= fsDuration s) signals ->
  0 <= a -> a + sum_durations signals <= Int64.max_int ->
  fold_left (fun acc s => Int64.add acc (fsDuration s)) signals a =
  a + sum_durations signals.
Proof.
  induction signals as [|s rest IH]; intros a Hpos Ha Hmax;
    cbn [fold_left sum_durations fold_right] in *; [lia|].
  fold (sum_durations rest) in *.
  inversion Hpos as [|s' rest' Hs Hrest]; subst.
  pose proof (sum_durations_nonneg rest Hrest) as Hsum.
  unfold Int64.max_int in Hmax.
  rewrite add_small by (unfold Int64.in_range, Int64.min_int, Int64.max_int; lia).
  rewrite IH; try assumption; unfold Int64.max_int; lia.
Qed.

(** Below the running offset nothing is found. *)
Lemma Sequence_find_below signals : forall x i,
  Forall (fun s => 0 <= fsDuration s) signals ->
  0 <= i -> i + sum_durations signals <= Int64.max_int -> x < i ->
  Sequence_find signals x i = None.
Proof.
  induction signals as [|s rest IH]; intros x i Hpos Hi Hmax Hx;
    cbn [Sequence_find sum_durations fold_right] in *; [reflexivity|].
  fold (sum_durations rest) in *.
  inversion Hpos as [|s' rest' Hs Hrest]; subst.
  pose proof (sum_durations_nonneg rest Hrest) as Hsum.
  unfold Int64.max_int in Hmax.
  destruct (Z.leb_spec i x); [lia|]. cbn [andb].
  rewrite add_small by (unfold Int64.in_range, Int64.min_int, Int64.max_int; lia).
  apply IH; try assumption; unfold Int64.max_int; lia.
Qed.

(** At or above the end of the last segment nothing is found either. *)
Lemma Sequence_find_above signals : forall x i,
  Forall (fun s => 0 <= fsDuration s) signals ->
  0 <= i -> i + sum_durations signals <= Int64.max_int ->
  i + sum_durations signals <= x ->
  Sequence_find signals x i = None.
Proof.
  induction signals as [|s rest IH]; intros x i Hpos Hi Hmax Hx;
    cbn [Sequence_find sum_durations fold_right] in *; [reflexivity|].
  fold (sum_durations rest) in *.
  inversion Hpos as [|s' rest' Hs Hrest]; subst.
  pose proof (sum_durations_nonneg rest Hrest) as Hsum.
  unfold Int64.max_int in Hmax.
  rewrite add_small by (unfold Int64.in_range, Int64.min_int, Int64.max_int; lia).
  destruct (Z.ltb_spec x (i + fsDuration s)); [lia|]. rewrite andb_false_r.
  apply IH; try assumption; unfold Int64.max_int; lia.
Qed.

(** X1. With non-negative durations whose sum fits [int64] and is positive,
    a negative offset [t] that is not a whole number of periods makes
    [Sequence] panic with "unreachable": [t % total] is negative and every
    segment starts at 0 or later.  A negative whole number of periods is
    treated like 0. *)
Theorem Sequence_negative_offset (signals : list FiniteSignal) (t : Duration) :
  Forall (fun s => 0 <= fsDuration s) signals ->
  sum_durations signals <= Int64.max_int ->
  0 < totalDuration signals -> t < 0 ->
  (Z.rem t (totalDuration signals) <> 0 ->
   Sequence signals t = Panic "unreachable") /\
  (Z.rem t (totalDuration signals) = 0 ->
   Sequence signals t = Sequence signals 0).
Proof.
  intros Hpos Hmax HD Ht.
  assert (Hrem : Int64.rem t (totalDuration signals) =
                 Ok (Z.rem t (totalDuration signals))).
  { unfold Int64.rem. destruct (Z.eqb_spec (totalDuration signals) 0); [lia|reflexivity]. }
  split; intros Hr.
  - assert (Hle : Z.rem t (totalDuration signals) <= 0)
      by (apply Z.rem_nonpos; lia).
    unfold Sequence. rewrite Hrem. cbn [bind].
    rewrite Sequence_walk_find, Sequence_find_below; try assumption; try lia.
    reflexivity.
  - unfold Sequence. rewrite Hrem, Hr. unfold Int64.rem.
    destruct (Z.eqb_spec (totalDuration signals) 0); [lia|].
    now rewrite Z.rem_0_l by lia.
Qed.

Lemma Sequence_negative_offset_witness :
  (Z.rem (-7) (totalDuration [F 2 (Constant 1); F 3 (Constant (-1))]) <> 0 ->
   Sequence [F 2 (Constant 1); F 3 (Constant (-1))] (-7) = Panic "unreachable") /\
  (Z.rem (-7) (totalDuration [F 2 (Constant 1); F 3 (Constant (-1))]) = 0 ->
   Sequence [F 2 (Constant 1); F 3 (Constant (-1))] (-7) =
   Sequence [F 2 (Constant 1); F 3 (Constant (-1))] 0).
Proof.
  apply (Sequence_negative_offset [F 2 (Constant 1); F 3 (Constant (-1))] (-7)).
  - repeat constructor; vm_compute; congruence.
  - vm_compute. congruence.
  - reflexivity.
  - reflexivity.
Defined.

(** X2. A segment of duration zero is never selected and moves no offset:
    with or without it the signal is the same, at every offset. *)
Theorem Sequence_skips_zero_duration (l1 l2 : list FiniteSignal)
  (z : FiniteSignal) (x : Duration) :
  fsDuration z = 0 ->
  Sequence (l1 ++ z :: l2) x = Sequence (l1 ++ l2) x.
Proof.
  intros Hz.
  assert (Hadd : forall i, Int64.in_range i -> Int64.add i (fsDuration z) = i).
  { intros i Hi. rewrite Hz, add_small; rewrite Z.add_0_r; trivial. }
  assert (Hend : forall i, Int64.in_range i ->
             Int64.in_range (fold_left (fun acc s => Int64.add acc (fsDuration s)) l1 i))
    by (intros; now apply offsets_in_range).
  assert (Htot : totalDuration (l1 ++ z :: l2) = totalDuration (l1 ++ l2)).
  { unfold totalDuration. rewrite !fold_left_app. cbn [fold_left].
    rewrite Hadd by (apply Hend, zero_in_range). reflexivity. }
  unfold Sequence. rewrite Htot.
  destruct (Int64.rem x (totalDuration (l1 ++ l2))) as [x'|msg]; cbn [bind];
    [|reflexivity].
  rewrite !Sequence_walk_app. destruct (Sequence_find l1 x' 0); [reflexivity|].
  cbn [Sequence_walk]. rewrite Hadd by (apply Hend, zero_in_range).
  destruct (Z.leb_spec (fold_left (fun acc s => Int64.add acc (fsDuration s)) l1 0) x'),
           (Z.ltb_spec x' (fold_left (fun acc s => Int64.add acc (fsDuration s)) l1 0));
    try lia; reflexivity.
Qed.

Lemma Sequence_skips_zero_duration_witness :
  Sequence ([F 2 (Constant 1)] ++ Blank 0 :: [F 3 (Constant (-1))]) 4 =
  Sequence ([F 2 (Constant 1)] ++ [F 3 (Constant (-1))]) 4.
Proof.
  apply (Sequence_skips_zero_duration [F 2 (Constant 1)] [F 3 (Constant (-1))]
           (Blank 0) 4).
  reflexivity.
Defined.

(** X3. A sequence nested as the first segment of another, with its own
    total as duration, can be flattened: the outer offsets below that total
    are the inner ones.  (Later positions differ: the inner sequence would
    be called with the outer time.) *)
Theorem Sequence_flatten_head (l1 l2 : list FiniteSignal) (t : Duration) :
  Forall (fun s => 0 <= fsDuration s) l1 ->
  sum_durations l1 <= Int64.max_int ->
  Sequence (F (totalDuration l1) (Sequence l1) :: l2) t = Sequence (l1 ++ l2) t.
Proof.
  intros Hpos Hmax.
  pose proof (sum_durations_nonneg l1 Hpos) as Hsum.
  assert (HD : totalDuration l1 = sum_durations l1).
  { now apply totalDuration_exact. }
  assert (Hfold : fold_left (fun acc s => Int64.add acc (fsDuration s)) l1 0 =
                  sum_durations l1) by exact HD.
  assert (Hadd : Int64.add 0 (sum_durations l1) = sum_durations l1).
  { apply add_small. unfold Int64.in_range, Int64.min_int, Int64.max_int in *. lia. }
  assert (Htot : totalDuration (F (totalDuration l1) (Sequence l1) :: l2) =
                 totalDuration (l1 ++ l2)).
  { unfold totalDuration at 1 3. rewrite fold_left_app. cbn [fold_left F fsDuration].
    now rewrite HD, Hadd, Hfold. }
  unfold Sequence at 1 3. rewrite Htot.
  destruct (Int64.rem t (totalDuration (l1 ++ l2))) as [x|msg]; cbn [bind];
    [|reflexivity].
  rewrite Sequence_walk_app, Hfold.
  cbn [Sequence_walk F fsDuration fsSignal]. rewrite HD, Hadd.
  destruct (Z.leb_spec 0 x) as [H0|H0]; cbn [andb].
  - destruct (Z.ltb_spec x (sum_durations l1)) as [Hlt|Hge].
    + (* inside the nested sequence *)
      unfold At at 1. unfold Sequence, Int64.rem. rewrite HD.
      destruct (Z.eqb_spec (sum_durations l1) 0); [lia|].
      rewrite Z.rem_small by lia. cbn [bind].
      rewrite Sequence_walk_find.
      destruct (Sequence_find l1 x 0) as [s|] eqn:Hfind; [reflexivity|].
      exfalso. destruct (Sequence_find_first l1 x 0) as (k & s & _ & _ & Hsome).
      * rewrite Hfold. lia.
      * congruence.
    + rewrite Sequence_find_above; try assumption; try lia. reflexivity.
  - rewrite Sequence_find_below; try assumption; try lia. reflexivity.
Qed.

Lemma Sequence_flatten_head_witness :
  Sequence (F (totalDuration [F 2 (Constant 1); F 3 (Constant (-1))])
              (Sequence [F 2 (Constant 1); F 3 (Constant (-1))])
            :: [F 4 (Constant 0)]) 12 =
  Sequence ([F 2 (Constant 1); F 3 (Constant (-1))] ++ [F 4 (Constant 0)]) 12.
Proof.
  apply (Sequence_flatten_head [F 2 (Constant 1); F 3 (Constant (-1))]
           [F 4 (Constant 0)] 12).
  - repeat constructor; vm_compute; congruence.
  - vm_compute. congruence.
Defined.

(** * More on [Amplify] and [Combine] *)

Lemma float64_mul_comm (a b : float64) : (a * b)%float = (b * a)%float.
Proof.
  apply Prim2SF_inj. rewrite !mul_spec. unfold SF64mul.
  destruct (Prim2SF a) as [sa|sa| |sa ma ea], (Prim2SF b) as [sb|sb| |sb mb eb];
    cbn [SFmul]; rewrite ?(xorb_comm sa sb); try reflexivity.
  now rewrite (Pos.mul_comm ma mb), (Z.add_comm ea eb).
Qed.

Lemma float64_add_comm (a b : float64) : (a + b)%float = (b + a)%float.
Proof.
  apply Prim2SF_inj. rewrite !add_spec. unfold SF64add.
  destruct (Prim2SF a) as [[|]|[|]| |sa ma ea], (Prim2SF b) as [[|]|[|]| |sb mb eb];
    cbn [SFadd]; try reflexivity.
  rewrite (Z.min_comm ea eb). f_equal. apply Z.add_comm.
Qed.

(** X4. On two signals that return values at [t], [Amplify] does not
    depend on which is the carrier and which the envelope. *)
Theorem Amplify_comm (v w : Signal) (t : Duration) (a b : float64) :
  At v t = Ok a -> At w t = Ok b ->
  Amplify v w t = Amplify w v t.
Proof.
  intros Hv Hw. unfold Amplify. rewrite Hv, Hw. cbn [bind].
  now rewrite float64_mul_comm.
Qed.

Lemma Amplify_comm_witness :
  Amplify (Constant 0.5) (Constant 3) 9 = Amplify (Constant 3) (Constant 0.5) 9.
Proof.
  apply (Amplify_comm (Constant 0.5) (Constant 3) 9 0.5%float 3%float);
    reflexivity.
Defined.

(** When both panic the order shows: the carrier is evaluated first. *)
Example Amplify_first_panic :
  Amplify (Sequence [F 2 (Constant 0)]) (Sequence []) (-1) = Panic "unreachable" /\
  Amplify (Sequence []) (Sequence [F 2 (Constant 0)]) (-1) = Panic divide_error.
Proof. split; reflexivity. Qed.

(** ** Multiplying and dividing by one *)

Lemma digits_bounds (m : positive) :
  let d := Z.pos (digits2_pos m) in
  2 ^ (d - 1) <= Z.pos m < 2 ^ d.
Proof.
  intros d. unfold d. rewrite digits2_size.
  destruct (size_bounds m) as [Hle Hgt]. split; [|exact Hgt].
  replace (Z.pos (Pos.size m)) with (Z.pos (Pos.size m) - 1 + 1) in Hle by lia.
  rewrite Z.pow_add_r in Hle by lia. change (2 ^ 1) with 2 in Hle. lia.
Qed.

Lemma digits_shifted (m M : positive) (k : Z) :
  0 <= k -> Z.pos M = Z.pos m * 2 ^ k ->
  Z.pos (digits2_pos M) = Z.pos (digits2_pos m) + k.
Proof.
  intros Hk HM. pose proof (digits_bounds m) as Hb. cbv zeta in Hb.
  set (d := Z.pos (digits2_pos m)) in *.
  assert (Hd : 0 < d) by (unfold d; lia).
  apply digits_unique. rewrite HM.
  replace (d + k - 1) with (d - 1 + k) by lia. rewrite !Z.pow_add_r by lia.
  pose proof (Z.pow_pos_nonneg 2 k). nia.
Qed.

(** A valid mantissa and exponent are left as they are by the rounding. *)
Lemma round_aux_valid (sx : bool) (m : positive) (e : Z) :
  bounded prec emax m e = true ->
  forall M E,
  shr_fexp prec emax (Z.pos M) E loc_Exact = (exact_record m, e) ->
  binary_round_aux prec emax sx (Z.pos M) E loc_Exact = S754_finite sx m e.
Proof.
  intros Hb M E HM. unfold binary_round_aux. rewrite HM.
  cbn [exact_record shr_m loc_of_shr_record round_nearest_even].
  unfold bounded, canonical_mantissa in Hb.
  apply andb_true_iff in Hb as [Hc He]. apply Z.eqb_eq in Hc.
  unfold shr_fexp. cbn [Zdigits2]. rewrite Hc, Z.sub_diag.
  cbn [shr shr_record_of_loc shr_m]. now rewrite He.
Qed.

(** Dropping [k] zero bits of a mantissa [m * 2^k] gives [m] back. *)
Lemma shr_fexp_shifted (m M : positive) (e k : Z) :
  bounded prec emax m e = true ->
  0 <= k -> Z.pos M = Z.pos m * 2 ^ k ->
  shr_fexp prec emax (Z.pos M) (e - k) loc_Exact = (exact_record m, e).
Proof.
  intros Hb Hk HM. unfold bounded, canonical_mantissa in Hb.
  apply andb_true_iff in Hb as [Hc _]. apply Z.eqb_eq in Hc.
  unfold shr_fexp. cbn [Zdigits2]. rewrite (digits_shifted m M k Hk HM).
  replace (Z.pos (digits2_pos m) + k + (e - k)) with (Z.pos (digits2_pos m) + e)
    by lia.
  rewrite Hc. replace (e - (e - k)) with k by lia.
  destruct k as [|k|k]; [| |lia]; cbn [shr shr_record_of_loc].
  - f_equal; [|lia]. unfold exact_record. f_equal.
    change (2 ^ 0) with 1 in HM. lia.
  - rewrite iter_pos_nat. fold (exact_record M).
    rewrite (shr_1_exact (Pos.to_nat k) m M) by (now rewrite positive_nat_Z).
    f_equal. lia.
Qed.

Lemma float64_mul_one (v : float64) : (v * 1)%float = v.
Proof.
  apply Prim2SF_inj. rewrite mul_spec. unfold SF64mul.
  change (Prim2SF 1) with (S754_finite false 4503599627370496 (-52)).
  pose proof (Prim2SF_valid v) as Hv.
  destruct (Prim2SF v) as [s|s| |s m e]; cbn [SFmul];
    rewrite ?xorb_false_r; try reflexivity.
  cbn [SpecFloat.valid_binary] in Hv.
  apply (round_aux_valid s m e Hv).
  replace (e + -52) with (e - 52) by lia.
  apply shr_fexp_shifted; [exact Hv|lia|].
  rewrite Pos2Z.inj_mul. reflexivity.
Qed.

(** X5. A constant envelope of 1 leaves the carrier as it is, value or
    panic, at every offset. *)
Theorem Amplify_by_one_neutral (s : Signal) (t : Duration) :
  Amplify s (Constant 1) t = At s t.
Proof.
  unfold Amplify, At. destruct (s t) as [v|msg]; cbn [bind]; [|reflexivity].
  unfold Constant. cbn [bind]. now rewrite float64_mul_one.
Qed.

Lemma div_eucl_pair a b : Z.div_eucl a b = (a / b, a mod b).
Proof. unfold Z.div, Z.modulo. now destruct (Z.div_eucl a b). Qed.

(** The quotient of a valid mantissa by the mantissa of 1.0: the same
    mantissa, with at most one more zero bit, and nothing lost. *)
Lemma div_core_one (m : positive) (e : Z) :
  bounded prec emax m e = true ->
  exists j M, 0 <= j /\ Z.pos M = Z.pos m * 2 ^ j /\
    SFdiv_core_binary prec emax (Z.pos m) e (Z.pos 4503599627370496) (-52) =
    (Z.pos M, e - j, loc_Exact).
Proof.
  intros Hb. unfold bounded, canonical_mantissa in Hb.
  apply andb_true_iff in Hb as [Hc _]. apply Z.eqb_eq in Hc.
  unfold SFdiv_core_binary. cbn [Zdigits2].
  change (Z.pos (digits2_pos 4503599627370496)) with 53.
  set (d := Z.pos (digits2_pos m)) in *.
  assert (Hd : 0 < d) by (unfold d; lia).
  unfold fexp, SpecFloat.emin, prec, emax in *.
  set (e' := Z.min _ _).
  assert (He' : e' = e - 1 \/ e' = e) by (unfold e'; lia).
  exists (e - e'), (Z.to_pos (Z.pos m * 2 ^ (e - e'))).
  assert (Hj : 0 <= e - e') by lia.
  assert (HP : 0 < 2 ^ (e - e')) by (apply Z.pow_pos_nonneg; lia).
  split; [exact Hj|]. split; [rewrite Z2Pos.id; nia|].
  assert (Hs : e - -52 - e' = 52 + (e - e')) by lia. rewrite Hs.
  assert (Hm' : match 52 + (e - e') with
                | 0 => Z.pos m
                | Z.pos _ => Z.shiftl (Z.pos m) (52 + (e - e'))
                | Z.neg _ => 0
                end = Z.pos m * 2 ^ (e - e') * 2 ^ 52).
  { destruct (52 + (e - e')) as [|q|q] eqn:Hq; try lia.
    rewrite Z.shiftl_mul_pow2, <- Hq by lia.
    rewrite Z.pow_add_r by lia. ring. }
  rewrite Hm', div_eucl_pair.
  change (Z.pos 4503599627370496) with (2 ^ 52).
  rewrite Z.div_mul, Z.mod_mul by lia.
  rewrite Z2Pos.id by nia.
  replace (e - (e - e')) with e' by lia. reflexivity.
Qed.

Lemma float64_div_one (v : float64) : (v / 1)%float = v.
Proof.
  apply Prim2SF_inj. rewrite div_spec. unfold SF64div.
  change (Prim2SF 1) with (S754_finite false 4503599627370496 (-52)).
  pose proof (Prim2SF_valid v) as Hv.
  destruct (Prim2SF v) as [s|s| |s m e]; cbn [SFdiv];
    rewrite ?xorb_false_r; try reflexivity.
  cbn [SpecFloat.valid_binary] in Hv.
  destruct (div_core_one m e Hv) as (j & M & Hj & HM & ->).
  apply (round_aux_valid s m e Hv). now apply shr_fexp_shifted.
Qed.

(** Adding to [+0]: every value is kept except [-0], which becomes [+0]. *)
Lemma float64_zero_add (v : float64) :
  (0 + v)%float = if PrimFloat.Leibniz.eqb v neg_zero then 0%float else v.
Proof.
  destruct (PrimFloat.Leibniz.eqb v neg_zero) eqn:Hz.
  - apply FloatAxioms.Leibniz.eqb_spec in Hz. subst v. reflexivity.
  - apply Prim2SF_inj. rewrite add_spec. unfold SF64add.
    change (Prim2SF 0) with (S754_zero false).
    destruct (Prim2SF v) as [[|]|s| |s m e] eqn:Hv; cbn [SFadd]; try reflexivity.
    exfalso. assert (v = neg_zero).
    { apply Prim2SF_inj. rewrite Hv. reflexivity. }
    subst v. discriminate Hz.
Qed.

(** X6. The mix of a single signal is that signal: [Combine [s]] returns
    the value of [s], or its panic, at every offset.  Only a value of [-0]
    comes out as [+0], the sum having started at [+0]. *)
Theorem Combine_single (s : Signal) (t : Duration) :
  Combine [s] t =
  match At s t with
  | Ok v => Ok (if PrimFloat.Leibniz.eqb v neg_zero then 0%float else v)
  | Panic msg => Panic msg
  end.
Proof.
  unfold Combine. cbn [Combine_sum List.length].
  destruct (At s t) as [v|msg]; cbn [bind]; [|reflexivity].
  change (float64_of_int (Z.of_nat 1)) with 1%float.
  now rewrite float64_div_one, float64_zero_add.
Qed.

(** X7. The mix of two signals that return values does not depend on
    their order. *)
Theorem Combine_two_comm (v w : Signal) (t : Duration) (a b : float64) :
  At v t = Ok a -> At w t = Ok b ->
  Combine [v; w] t = Combine [w; v] t.
Proof.
  intros Hv Hw. unfold Combine. cbn [Combine_sum List.length].
  rewrite Hv, Hw. cbn [bind]. do 2 f_equal.
  rewrite !float64_zero_add.
  destruct (PrimFloat.Leibniz.eqb a neg_zero) eqn:Ha,
           (PrimFloat.Leibniz.eqb b neg_zero) eqn:Hb;
    try apply FloatAxioms.Leibniz.eqb_spec in Ha;
    try apply FloatAxioms.Leibniz.eqb_spec in Hb; subst.
  - reflexivity.
  - rewrite float64_zero_add, Hb.
    apply Prim2SF_inj. rewrite add_spec. unfold SF64add.
    change (Prim2SF neg_zero) with (S754_zero true).
    destruct (Prim2SF b) as [[|]|s| |s m e]; reflexivity.
  - rewrite float64_zero_add, Ha.
    apply Prim2SF_inj. rewrite add_spec. unfold SF64add.
    change (Prim2SF neg_zero) with (S754_zero true).
    destruct (Prim2SF a) as [[|]|s| |s m e]; reflexivity.
  - apply float64_add_comm.
Qed.

Lemma Combine_two_comm_witness :
  Combine [Constant 0.25; Constant 3] 9 = Combine [Constant 3; Constant 0.25] 9.
Proof.
  apply (Combine_two_comm (Constant 0.25) (Constant 3) 9 0.25%float 3%float);
    reflexivity.
Defined.

(** With three signals the order matters: [float64] addition does not
    associate. *)
Example Combine_three_order :
  Combine [Constant 1e16; Constant (-1e16); Constant 1] 0 <>
  Combine [Constant 1; Constant 1e16; Constant (-1e16)] 0.
Proof. vm_compute. discriminate. Qed.

(** * More on [EncodePCM] *)

(** ** The word of a value *)

Lemma word_fields w :
  uint64 w ->
  let s := Z.testbit w 63 in
  let ex := Z.shiftr w 52 mod 2 ^ 11 in
  let mant := w mod 2 ^ 52 in
  0 <= ex < 2 ^ 11 /\ 0 <= mant < 2 ^ 52 /\
  w = sign_bit s + ex * 2 ^ 52 + mant.
Proof.
  intros [Hlo Hhi] s ex mant.
  assert (Hex : 0 <= ex < 2 ^ 11) by (apply Z.mod_pos_bound; lia).
  assert (Hm : 0 <= mant < 2 ^ 52) by (apply Z.mod_pos_bound; lia).
  split; [exact Hex|]. split; [exact Hm|].
  assert (Hq : 0 <= w / 2 ^ 63 <= 1).
  { split; [apply Z.div_pos; lia|].
    apply Z.lt_succ_r. apply Z.div_lt_upper_bound; lia. }
  assert (Hs : sign_bit s = (w / 2 ^ 63) * 2 ^ 63).
  { unfold s. destruct (Z.eq_dec (w / 2 ^ 63) 0) as [H0|H0].
    - rewrite (proj2 (Z.testbit_false w 63 ltac:(lia))) by (rewrite H0; reflexivity).
      rewrite H0. reflexivity.
    - assert (H1 : w / 2 ^ 63 = 1) by lia.
      rewrite (proj2 (Z.testbit_true w 63 ltac:(lia))) by (rewrite H1; reflexivity).
      rewrite H1. reflexivity. }
  rewrite Hs. unfold ex, mant. rewrite Z.shiftr_div_pow2 by lia.
  pose proof (Z.div_mod w (2 ^ 52) ltac:(lia)) as E1.
  pose proof (Z.div_mod (w / 2 ^ 52) (2 ^ 11) ltac:(lia)) as E2.
  rewrite Z.div_div in E2 by lia. change (2 ^ 52 * 2 ^ 11) with (2 ^ 63) in E2.
  lia.
Qed.

(** Every word stands for a value of the format. *)
Lemma SFfrombits_valid w : uint64 w -> valid_binary (SFfrombits w) = true.
Proof.
  intros Hw. destruct (word_fields w Hw) as (Hex & Hm & _).
  unfold SFfrombits.
  set (s := Z.testbit w 63) in *. set (ex := Z.shiftr w 52 mod 2 ^ 11) in *.
  set (mant := w mod 2 ^ 52) in *.
  destruct (Z.eqb_spec ex 2047) as [E|E].
  - destruct (mant =? 0); reflexivity.
  - destruct (Z.eqb_spec ex 0) as [E0|E0].
    + destruct mant as [|m|m] eqn:Em; [reflexivity| |reflexivity].
      cbn [SpecFloat.valid_binary]. unfold bounded, canonical_mantissa.
      rewrite andb_true_iff, Z.eqb_eq, Z.leb_le.
      pose proof (digits_bounds m) as Hb. cbv zeta in Hb.
      set (d := Z.pos (digits2_pos m)) in *.
      assert (Hd : d <= 52).
      { destruct (Z.le_gt_cases d 52) as [|Hgt]; [assumption|exfalso].
        assert (2 ^ 52 <= 2 ^ (d - 1)) by (apply Z.pow_le_mono_r; lia). lia. }
      unfold fexp, SpecFloat.emin, prec, emax. lia.
    + destruct (mant + 2 ^ 52) as [|m|m] eqn:Em; [reflexivity| |reflexivity].
      cbn [SpecFloat.valid_binary]. unfold bounded, canonical_mantissa.
      rewrite andb_true_iff, Z.eqb_eq, Z.leb_le.
      rewrite (digits_unique m 53) by (change (53 - 1) with 52;
        change (2 ^ 53) with (2 ^ 52 + 2 ^ 52); lia).
      unfold fexp, SpecFloat.emin, prec, emax. lia.
Qed.

(** A word that does not stand for NaN is the word of its value. *)
Lemma SFbits_SFfrombits w :
  uint64 w -> SFfrombits w <> S754_nan -> SFbits (SFfrombits w) = w.
Proof.
  intros Hw. destruct (word_fields w Hw) as (Hex & Hm & Hsum).
  unfold SFfrombits.
  set (s := Z.testbit w 63) in *. set (ex := Z.shiftr w 52 mod 2 ^ 11) in *.
  set (mant := w mod 2 ^ 52) in *.
  destruct (Z.eqb_spec ex 2047) as [E|E].
  - destruct (Z.eqb_spec mant 0) as [M0|M0]; [|congruence].
    intros _. cbn [SFbits]. lia.
  - destruct (Z.eqb_spec ex 0) as [E0|E0].
    + destruct mant as [|m|m] eqn:Em; intros _; cbn [SFbits]; [lia| |lia].
      destruct (Z.ltb_spec (Z.pos m) (2 ^ 52)); lia.
    + destruct (mant + 2 ^ 52) as [|m|m] eqn:Em; [congruence| |congruence].
      intros _. cbn [SFbits].
      destruct (Z.ltb_spec (Z.pos m) (2 ^ 52)); lia.
Qed.

(** The word of a sample that is not a NaN is determined by its value: the
    bytes of such a sample are the bytes of [Float64store] of its value. *)
Lemma Float64store_value w :
  uint64 w -> is_nan (Float64value w) = false ->
  Float64store (Float64value w) = w.
Proof.
  intros Hw Hnan. unfold Float64store, Float64value in *.
  rewrite Prim2SF_SF2Prim by now apply SFfrombits_valid.
  apply SFbits_SFfrombits; [exact Hw|].
  intros E. rewrite E in Hnan. vm_compute in Hnan. discriminate.
Qed.

Lemma EncodePCM_flat (frames : list bits64) :
  EncodePCM frames = flat_map (fun pulse => PutUint64 (Float64bits pulse)) frames.
Proof. unfold EncodePCM. now rewrite EncodePCM_from. Qed.

(** X8. Encoding is a homomorphism for concatenation: the buffer of two
    runs of frames is the buffer of the first followed by the buffer of
    the second, so a stream can be encoded piece by piece. *)
Theorem EncodePCM_app (a b : list bits64) :
  EncodePCM (a ++ b) = EncodePCM a ++ EncodePCM b.
Proof. rewrite !EncodePCM_flat. apply flat_map_app. Qed.

(** X9. On frames as they are stored, [EncodePCM] is injective: two runs
    of frames have the same buffer exactly when they are the same run, bit
    for bit.  Two NaN samples of different patterns are different frames. *)
Theorem EncodePCM_injective (a b : list bits64) :
  Forall uint64 a -> Forall uint64 b ->
  (EncodePCM a = EncodePCM b <-> a = b).
Proof.
  intros Ha Hb. split; [|now intros ->].
  intros H.
  pose proof (DecodePCM_EncodePCM a Ha) as Da.
  pose proof (DecodePCM_EncodePCM b Hb) as Db.
  rewrite H in Da. congruence.
Qed.

Lemma EncodePCM_injective_witness :
  let a := [0x3FF0000000000000; 0xFFF8000000000000] in
  let b := [0x3FF0000000000000; 0x7FF8000000000001] in
  Forall uint64 a /\ Forall uint64 b /\ (EncodePCM a = EncodePCM b <-> a = b).
Proof.
  assert (Ha : Forall uint64 [0x3FF0000000000000; 0xFFF8000000000000]).
  { repeat constructor; unfold uint64; lia. }
  assert (Hb : Forall uint64 [0x3FF0000000000000; 0x7FF8000000000001]).
  { repeat constructor; unfold uint64; lia. }
  split; [exact Ha|]. split; [exact Hb|].
  apply (EncodePCM_injective _ _ Ha Hb).
Defined.

(** The two frames stand for the same values, [1] and NaN, and their
    buffers differ in the last sample. *)
Example EncodePCM_distinguishes_nans :
  map Float64value [0x3FF0000000000000; 0xFFF8000000000000] =
  map Float64value [0x3FF0000000000000; 0x7FF8000000000001] /\
  EncodePCM [0x3FF0000000000000; 0xFFF8000000000000] <>
  EncodePCM [0x3FF0000000000000; 0x7FF8000000000001].
Proof. split; [reflexivity|]. vm_compute. discriminate. Qed.

(** * More on [Sample] *)

Lemma samples_from_app f p n1 : forall x n2,
  samples_from f p x (n1 + n2) =
  samples_from f p x n1 ++ samples_from f p (x + Z.of_nat n1 * p) n2.
Proof.
  induction n1 as [|n1 IH]; intros x n2.
  - cbn [Nat.add]. unfold samples_from at 2. cbn [seq map app].
    f_equal. lia.
  - cbn [Nat.add]. rewrite !samples_from_S, IH. cbn [app]. do 3 f_equal. lia.
Qed.

(** The loop again, for a signal that returns values from the offset [lo]
    on only: a [Sequence], say, which panics below 0. *)
Lemma Sample_loop_exact_from (s : Signal) (f : Duration -> float64)
  (p B lo : Z) (r : nat) :
  (forall x, lo <= x -> At s x = Ok (f x)) -> 0 < p -> small p ->
  forall x frames fuel,
  (r < fuel)%nat -> lo <= x ->
  small x -> small B -> small (x + Z.of_nat r * p) ->
  B <= x + Z.of_nat r * p ->
  ((0 < r)%nat -> x + (Z.of_nat r - 1) * p < B) ->
  Sample_loop fuel s (float64_of_int x) (float64_of_int B) (float64_of_int p)
    frames = Some (Ok (frames ++ samples_from f p x r)).
Proof.
  intros Hs Hp Hps.
  induction r as [|r IH]; intros x frames fuel Hfuel Hlo Hx HB Hend Hhi Hlast;
    (destruct fuel as [|fuel]; [lia|]); cbn [Sample_loop];
    rewrite float64_ltb_exact by assumption.
  - destruct (Z.ltb_spec x B); [lia|].
    unfold samples_from. cbn [seq map]. now rewrite app_nil_r.
  - specialize (Hlast ltac:(lia)).
    destruct (Z.ltb_spec x B); [|nia].
    rewrite Duration_of_float64_exact, Hs by assumption.
    assert (Hxp : small (x + p)) by (unfold small in *; nia).
    rewrite float64_add_exact by assumption.
    rewrite (IH (x + p)); try assumption; try lia.
    + rewrite samples_from_S, <- app_assoc. reflexivity.
    + replace (x + p + Z.of_nat r * p) with (x + Z.of_nat (S r) * p) by lia.
      exact Hend.
Qed.

Lemma Sample_exact_from (s : Signal) (f : Duration -> float64)
  (rate : Z) (from to : Duration) (fuel : nat) :
  (forall x, from <= x -> At s x = Ok (f x)) ->
  0 < rate -> Second mod rate = 0 ->
  Z.abs from <= 2 ^ 52 -> Z.abs (from + to) <= 2 ^ 52 ->
  (sample_count to (Second / rate) < fuel)%nat ->
  Sample fuel s rate from to =
  Some (Ok (samples_from f (Second / rate) from (sample_count to (Second / rate)))).
Proof.
  intros Hs Hr Hmod Hfrom Hto Hfuel. unfold Sample.
  rewrite step_exact by assumption.
  assert (Hq : Second = rate * (Second / rate)).
  { apply Z.div_exact; [lia|exact Hmod]. }
  set (p := Second / rate) in *.
  assert (Hp : 0 < p <= Second) by (unfold Second in *; nia).
  rewrite add_small by (unfold Int64.in_range, Int64.min_int, Int64.max_int; lia).
  destruct (sample_count_spec to p ltac:(lia)) as [Hneg Hpos].
  set (n := sample_count to p) in *.
  assert (Hps : small p) by (unfold small, Second in *; lia).
  apply (Sample_loop_exact_from s f p (from + to) from n Hs ltac:(lia) Hps from [] fuel);
    unfold small, Second in *; lia.
Qed.

(** Whole periods count one sample each. *)
Lemma sample_count_add k p to :
  0 < p -> 0 <= k -> 0 <= to ->
  sample_count (k * p + to) p = (Z.to_nat k + sample_count to p)%nat.
Proof.
  intros Hp Hk Hto. unfold sample_count.
  replace (k * p + to + p - 1) with (k * p + (to + p - 1)) by lia.
  rewrite Z.div_add_l by lia.
  rewrite Z2Nat.inj_add; [reflexivity|lia|]. apply Z.div_pos; lia.
Qed.

Lemma sample_count_whole k p :
  0 < p -> 0 <= k -> sample_count (k * p) p = Z.to_nat k.
Proof.
  intros Hp Hk. unfold sample_count.
  replace (k * p + p - 1) with (k * p + (p - 1)) by lia.
  rewrite Z.div_add_l, (Z.div_small (p - 1)) by lia. f_equal. lia.
Qed.

(** X10. Sampling a window in two consecutive pieces gives the frames of
    the whole window, provided the first piece is a whole number of
    periods (and the arithmetic is exact: a rate dividing [10^9], a window
    within [2^52] ns of 0, a signal returning values from [from] on). *)
Theorem Sample_split (s : Signal) (f : Duration -> float64) (rate : Z)
  (from to1 to2 : Duration) (fuel : nat) :
  (forall x, from <= x -> At s x = Ok (f x)) ->
  0 < rate -> Second mod rate = 0 ->
  0 <= to1 -> to1 mod (Second / rate) = 0 -> 0 <= to2 ->
  Z.abs from <= 2 ^ 52 -> Z.abs (from + (to1 + to2)) <= 2 ^ 52 ->
  (sample_count (to1 + to2) (Second / rate) < fuel)%nat ->
  exists a b,
    Sample fuel s rate from to1 = Some (Ok a) /\
    Sample fuel s rate (from + to1) to2 = Some (Ok b) /\
    Sample fuel s rate from (to1 + to2) = Some (Ok (a ++ b)).
Proof.
  intros Hs Hr Hmod H1 Hdiv H2 Hfrom Hto Hfuel.
  assert (Hq : Second = rate * (Second / rate)).
  { apply Z.div_exact; [lia|exact Hmod]. }
  set (p := Second / rate) in *.
  assert (Hp : 0 < p) by (unfold Second in Hq; nia).
  assert (Hk : to1 = (to1 / p) * p).
  { rewrite Z.mul_comm. apply Z.div_exact; [lia|exact Hdiv]. }
  set (k := to1 / p) in *.
  assert (Hk0 : 0 <= k) by (apply Z.div_pos; lia).
  assert (Hc : sample_count (to1 + to2) p = (Z.to_nat k + sample_count to2 p)%nat).
  { rewrite Hk. now apply sample_count_add. }
  assert (Hc1 : sample_count to1 p = Z.to_nat k).
  { rewrite Hk. now apply sample_count_whole. }
  exists (samples_from f p from (sample_count to1 p)),
         (samples_from f p (from + to1) (sample_count to2 p)).
  split; [|split].
  - apply Sample_exact_from; try assumption; fold p; lia.
  - apply Sample_exact_from; try assumption; fold p; try lia.
    intros x Hx. apply Hs. lia.
  - rewrite (Sample_exact_from s f rate from (to1 + to2) fuel); try assumption.
    fold p. rewrite Hc, Hc1, samples_from_app.
    replace (from + Z.of_nat (Z.to_nat k) * p) with (from + to1)
      by (rewrite Z2Nat.id; lia).
    reflexivity.
Qed.

Lemma Sample_split_witness :
  exists a b,
    Sample 9 (Constant 1) 8 (-250000000) 250000000 = Some (Ok a) /\
    Sample 9 (Constant 1) 8 (-250000000 + 250000000) 300000000 = Some (Ok b) /\
    Sample 9 (Constant 1) 8 (-250000000) (250000000 + 300000000) = Some (Ok (a ++ b)).
Proof.
  apply (Sample_split (Constant 1) (fun _ => 1%float) 8 (-250000000)
           250000000 300000000 9); try reflexivity;
    vm_compute; try congruence; lia.
Defined.

Lemma Sample_loop_panic (s : Signal) (p B : Z) (msg : string) (k : nat) :
  0 < p -> small p ->
  forall x frames fuel,
  (k < fuel)%nat ->
  small x -> small B -> small (x + Z.of_nat k * p) ->
  x + Z.of_nat k * p < B ->
  (forall j, (j < k)%nat -> exists v, At s (x + Z.of_nat j * p) = Ok v) ->
  At s (x + Z.of_nat k * p) = Panic msg ->
  Sample_loop fuel s (float64_of_int x) (float64_of_int B) (float64_of_int p)
    frames = Some (Panic msg).
Proof.
  intros Hp Hps.
  induction k as [|k IH]; intros x frames fuel Hfuel Hx HB Hend Hlt Hok Hpanic;
    (destruct fuel as [|fuel]; [lia|]); cbn [Sample_loop];
    rewrite float64_ltb_exact by assumption;
    (destruct (Z.ltb_spec x B); [|nia]);
    rewrite Duration_of_float64_exact by assumption.
  - replace (x + Z.of_nat 0 * p) with x in Hpanic by lia. now rewrite Hpanic.
  - destruct (Hok 0%nat ltac:(lia)) as [v Hv].
    replace (x + Z.of_nat 0 * p) with x in Hv by lia. rewrite Hv.
    assert (Hxp : small (x + p)) by (unfold small in *; nia).
    rewrite float64_add_exact by assumption.
    apply IH; try assumption; try lia.
    + replace (x + p + Z.of_nat k * p) with (x + Z.of_nat (S k) * p) by lia.
      exact Hend.
    + intros j Hj. destruct (Hok (S j) ltac:(lia)) as [w Hw]. exists w.
      replace (x + p + Z.of_nat j * p) with (x + Z.of_nat (S j) * p) by lia.
      exact Hw.
    + replace (x + p + Z.of_nat k * p) with (x + Z.of_nat (S k) * p) by lia.
      exact Hpanic.
Qed.

(** X11. A panic of the signal at any sample point is the result of
    [Sample]: the frames taken before it are lost.  (Exact arithmetic as
    before; [k] is the index of the first sample point that panics.) *)
Theorem Sample_propagates_panic (s : Signal) (rate : Z) (from to : Duration)
  (k fuel : nat) (msg : string) :
  0 < rate -> Second mod rate = 0 ->
  Z.abs from <= 2 ^ 52 -> Z.abs (from + to) <= 2 ^ 52 ->
  Z.of_nat k * (Second / rate) < to ->
  (forall j, (j < k)%nat ->
     exists v, At s (from + Z.of_nat j * (Second / rate)) = Ok v) ->
  At s (from + Z.of_nat k * (Second / rate)) = Panic msg ->
  (k < fuel)%nat ->
  Sample fuel s rate from to = Some (Panic msg).
Proof.
  intros Hr Hmod Hfrom Hto Hk Hok Hpanic Hfuel. unfold Sample.
  rewrite step_exact by assumption.
  assert (Hq : Second = rate * (Second / rate)).
  { apply Z.div_exact; [lia|exact Hmod]. }
  set (p := Second / rate) in *.
  assert (Hp : 0 < p <= Second) by (unfold Second in *; nia).
  rewrite add_small by (unfold Int64.in_range, Int64.min_int, Int64.max_int; lia).
  assert (Hps : small p) by (unfold small, Second in *; lia).
  apply (Sample_loop_panic s p (from + to) msg k ltac:(lia) Hps from [] fuel);
    try assumption; unfold small, Second in *; nia.
Qed.

Lemma Sample_propagates_panic_witness :
  Sample 5 (Sequence [F 500000000 (Constant 1)]) 4 (-500000000) Second =
  Some (Panic "unreachable").
Proof.
  apply (Sample_propagates_panic (Sequence [F 500000000 (Constant 1)]) 4
           (-500000000) Second 1 5 "unreachable").
  - reflexivity.
  - reflexivity.
  - vm_compute. congruence.
  - vm_compute. congruence.
  - reflexivity.
  - intros j Hj. assert (j = 0%nat) as -> by lia. eexists. reflexivity.
  - reflexivity.
  - lia.
Defined.

(** X12. Looping: when the signal built by [Sequence] returns values from
    0 on and its period is a whole number of sampling periods, the frames
    of two periods are the frames of one period, twice. *)
Theorem Sample_Sequence_two_periods (signals : list FiniteSignal)
  (f : Duration -> float64) (rate : Z) (fuel : nat) :
  let D := totalDuration signals in
  (forall x, 0 <= x -> At (Sequence signals) x = Ok (f x)) ->
  0 < rate -> Second mod rate = 0 ->
  0 < D -> D mod (Second / rate) = 0 -> D + D <= 2 ^ 52 ->
  (sample_count (D + D) (Second / rate) < fuel)%nat ->
  exists a,
    Sample fuel (Sequence signals) rate 0 D = Some (Ok a) /\
    Sample fuel (Sequence signals) rate 0 (D + D) = Some (Ok (a ++ a)).
Proof.
  intros D Hs Hr Hmod HD Hdiv Hmax Hfuel.
  assert (Hq : Second = rate * (Second / rate)).
  { apply Z.div_exact; [lia|exact Hmod]. }
  set (p := Second / rate) in *.
  assert (Hp : 0 < p) by (unfold Second in Hq; nia).
  assert (Hk : D = (D / p) * p).
  { rewrite Z.mul_comm. apply Z.div_exact; [lia|exact Hdiv]. }
  set (k := D / p) in *.
  assert (Hk0 : 0 <= k) by (apply Z.div_pos; lia).
  assert (Hc : sample_count (D + D) p = (Z.to_nat k + sample_count D p)%nat).
  { rewrite Hk at 1. apply sample_count_add; lia. }
  assert (Hc1 : sample_count D p = Z.to_nat k).
  { rewrite Hk. now apply sample_count_whole. }
  assert (Hper : forall x, 0 <= x -> f (x + D) = f x).
  { intros x Hx. pose proof (Hs x Hx) as H1. pose proof (Hs (x + D) ltac:(lia)) as H2.
    unfold At, Sequence in H1, H2. fold D in H1, H2.
    destruct (rem_pos x D HD Hx) as [R1 _].
    destruct (rem_pos (x + D) D HD ltac:(lia)) as [R2 _].
    rewrite R1 in H1. rewrite R2 in H2.
    assert (E : (x + D) mod D = x mod D).
    { replace (x + D) with (x + 1 * D) by lia. apply Z.mod_add. lia. }
    rewrite E in H2. congruence. }
  exists (samples_from f p 0 (sample_count D p)). split.
  - apply Sample_exact_from; try assumption; fold p; lia.
  - rewrite (Sample_exact_from (Sequence signals) f rate 0 (D + D) fuel);
      try assumption; try lia.
    fold p. rewrite Hc, Hc1, samples_from_app. do 3 f_equal.
    unfold samples_from. apply map_ext. intros j.
    rewrite Z2Nat.id by lia.
    replace (0 + k * p + Z.of_nat j * p) with (0 + Z.of_nat j * p + D) by lia.
    apply Hper. lia.
Qed.

Lemma Sample_Sequence_two_periods_witness :
  exists a,
    Sample 9 (Sequence [F 250000000 (Constant 1); F 250000000 (Constant (-1))]) 8 0
      (totalDuration [F 250000000 (Constant 1); F 250000000 (Constant (-1))])
      = Some (Ok a) /\
    Sample 9 (Sequence [F 250000000 (Constant 1); F 250000000 (Constant (-1))]) 8 0
      (totalDuration [F 250000000 (Constant 1); F 250000000 (Constant (-1))] +
       totalDuration [F 250000000 (Constant 1); F 250000000 (Constant (-1))])
      = Some (Ok (a ++ a)).
Proof.
  apply (Sample_Sequence_two_periods
           [F 250000000 (Constant 1); F 250000000 (Constant (-1))]
           (fun x => if x mod 500000000 <? 250000000 then 1%float else (-1)%float)
           8 9).
  - intros x Hx. unfold At, Sequence.
    change (totalDuration [F 250000000 (Constant 1); F 250000000 (Constant (-1))])
      with 500000000.
    destruct (rem_pos x 500000000 ltac:(lia) Hx) as [-> Hb]. cbn [bind].
    cbn [Sequence_walk F fsDuration fsSignal].
    change (Int64.add 0 250000000) with 250000000.
    change (Int64.add 250000000 250000000) with 500000000.
    destruct (Z.leb_spec 0 (x mod 500000000)); [|lia].
    destruct (Z.ltb_spec (x mod 500000000) 250000000); cbn [andb]; [reflexivity|].
    destruct (Z.leb_spec 250000000 (x mod 500000000)); [|lia].
    destruct (Z.ltb_spec (x mod 500000000) 500000000); [reflexivity|lia].
  - reflexivity.
  - reflexivity.
  - reflexivity.
  - reflexivity.
  - vm_compute. congruence.
  - vm_compute. lia.
Defined.

(** * [Lerp] *)

Example Lerp_values :
  At (fsSignal (Lerp 0 1 8)) 2 = Ok 0.25%float /\
  At (fsSignal (Lerp 1 0 8)) 6 = Ok 0.25%float /\
  At (fsSignal (Lerp 0 1 8)) 8 = Ok 0%float /\
  At (fsSignal (Lerp 0 1 8)) (-2) = Ok (-0.25)%float.
Proof. repeat split. Qed.

Example T_values :
  T 120 4 = 2 * Second /\ T 127 4 = 1889763779.
Proof. split; reflexivity. Qed.

Lemma SF2Prim_int_SF c :
  c <> 0 -> small c -> SF2Prim (int_SF c) = float64_of_int c.
Proof.
  intros Hc0 Hc. rewrite <- float64_of_int_exact by assumption.
  apply SF2Prim_Prim2SF.
Qed.

(** On non-negative integers below [2^53], [math.Mod] is the integer
    remainder. *)
Lemma Mod_int x y :
  0 <= x -> 0 < y -> small x -> small y ->
  Mod (float64_of_int x) (float64_of_int y) = float64_of_int (x mod y).
Proof.
  intros Hx Hy Hsx Hsy. unfold Mod. rewrite !float64_of_int_SF by assumption.
  destruct (Z.eqb_spec y 0) as [|_]; [lia|].
  destruct (Z.eqb_spec x 0) as [->|Hx0].
  - rewrite Z.mod_0_l by lia. reflexivity.
  - unfold small in *.
    destruct (int_digits (Z.abs x) ltac:(lia)) as [Hbx Hdx].
    destruct (int_digits (Z.abs y) ltac:(lia)) as [Hby Hdy].
    destruct (int_mantissa (Z.abs x) ltac:(lia)) as [Hmx _].
    destruct (int_mantissa (Z.abs y) ltac:(lia)) as [Hmy _].
    unfold int_SF. cbn [SFmod].
    set (dx := Z.log2 (Z.abs x) + 1) in *. set (dy := Z.log2 (Z.abs y) + 1) in *.
    set (e := Z.min (dx - 53) (dy - 53)).
    rewrite !shl_align_value by lia.
    rewrite Hmx, Hmy, <- !Z.mul_assoc, <- !Z.pow_add_r by lia.
    replace (53 - dx + (dx - 53 - e)) with (- e) by lia.
    replace (53 - dy + (dy - 53 - e)) with (- e) by lia.
    rewrite !Z.abs_eq by lia.
    pose proof (Z.pow_pos_nonneg 2 (- e) ltac:(lia) ltac:(lia)) as HP.
    rewrite Z.rem_mod_nonneg by nia.
    rewrite Z.mul_mod_distr_r by lia.
    replace (x <? 0) with false by (symmetry; apply Z.ltb_ge; lia).
    cbn [cond_Zopp].
    pose proof (Z.mod_pos_bound x y Hy) as Hb.
    destruct (Z.eq_dec (x mod y) 0) as [H0|H0].
    + rewrite H0, Z.mul_0_l. reflexivity.
    + rewrite (binary_normalize_exact _ e (x mod y)); try reflexivity;
        try assumption; try (unfold small; lia).
      apply SF2Prim_int_SF; [assumption|unfold small; lia].
Qed.

(** X13. A ramp repeats with its duration as period: for [x >= 0], a
    positive [over] and offsets below [2^53] ns, [Lerp] has the same value
    at [x + over] as at [x], whatever its end values. *)
Theorem Lerp_periodic (from to : float64) (over x : Duration) :
  0 < over -> 0 <= x -> x + over < 2 ^ 53 ->
  At (fsSignal (Lerp from to over)) (x + over) =
  At (fsSignal (Lerp from to over)) x.
Proof.
  intros Ho Hx Hs. unfold Lerp, F, At. cbn [fsSignal].
  rewrite !Mod_int by (unfold small; lia).
  replace ((x + over) mod over) with (x mod over); [reflexivity|].
  replace (x + over) with (x + 1 * over) by lia. symmetry. apply Z.mod_add. lia.
Qed.

Lemma Lerp_periodic_witness :
  At (fsSignal (Lerp 0 1 8)) (3 + 8) = At (fsSignal (Lerp 0 1 8)) 3.
Proof.
  apply (Lerp_periodic 0%float 1%float 8 3); vm_compute; congruence.
Defined.

(** X14. A ramp of duration zero has no value: at every offset it is a
    NaN, the remainder by zero. *)
Theorem Lerp_zero_duration (from to : float64) (x : Duration) :
  At (fsSignal (Lerp from to 0)) x = Ok nan.
Proof.
  unfold Lerp, F, At. cbn [fsSignal]. f_equal.
  assert (Hmod : Mod (float64_of_int x) (float64_of_int 0) = nan).
  { unfold Mod. rewrite float64_of_int_0.
    destruct (Prim2SF (float64_of_int x)); reflexivity. }
  rewrite Hmod. apply Prim2SF_inj.
  rewrite add_spec, div_spec, mul_spec.
  change (Prim2SF nan) with S754_nan. unfold SF64add, SF64div, SF64mul.
  destruct (Prim2SF from), (Prim2SF (to - from)), (Prim2SF (float64_of_int 0));
    reflexivity.
Qed.

(** X15. A ramp starts at [from]: when [from] and [to - from] are finite
    and [over] is not zero, the value at offset 0 equals [from]. *)
Theorem Lerp_start (from to : float64) (over : Duration) :
  is_finite from = true -> is_finite (to - from) = true ->
  over <> 0 -> small over ->
  exists y,
    At (fsSignal (Lerp from to over)) 0 = Ok y /\ (y =? from)%float = true.
Proof.
  intros Hf Hd Ho Hso. eexists. split; [reflexivity|].
  assert (Hmod : Mod (float64_of_int 0) (float64_of_int over) = 0%float).
  { unfold Mod. rewrite float64_of_int_0, float64_of_int_exact by assumption.
    reflexivity. }
  rewrite Hmod, eqb_spec, add_spec, div_spec, mul_spec.
  rewrite float64_of_int_exact by assumption.
  change (Prim2SF 0) with (S754_zero false).
  unfold SF64add, SF64div, SF64mul, int_SF.
  destruct (is_finite_cases _ Hd) as [sd [-> | (md & ed & ->)]];
    destruct (is_finite_cases _ Hf) as [sf [-> | (mf & ef & ->)]];
    cbn [SFmul SFdiv SFadd]; unfold SFeqb; cbn [SFcompare];
    try (destruct (xorb (xorb sd false) (over <? 0)), sf; reflexivity);
    destruct sf; now rewrite Z.compare_refl, ?Pos.compare_cont_refl.
Qed.

Lemma Lerp_start_witness :
  exists y, At (fsSignal (Lerp 0.25 1 8)) 0 = Ok y /\ (y =? 0.25)%float = true.
Proof.
  apply (Lerp_start 0.25%float 1%float 8); try reflexivity.
  vm_compute. congruence.
Defined.

(** X16. Two ramps of the same duration [d] in sequence, with a period
    [d + d] below [2^53] ns (so that [float64] holds every offset of the
    period exactly): each restarts at its own beginning, although
    [Sequence] calls the second with the time since the start of the
    period, because a ramp wraps that time by [d]. *)
Theorem Sequence_of_ramps (a b c e : float64) (d t : Duration) :
  0 < d -> d + d < 2 ^ 53 -> 0 <= t ->
  let x := t mod (d + d) in
  Sequence [Lerp a b d; Lerp c e d] t =
  if x <? d then At (fsSignal (Lerp a b d)) x
  else At (fsSignal (Lerp c e d)) (x - d).
Proof.
  intros Hd Hs Ht x.
  assert (Ha : Int64.add 0 d = d).
  { apply add_small. unfold Int64.in_range, Int64.min_int, Int64.max_int. lia. }
  assert (Hb : Int64.add d d = d + d).
  { apply add_small. unfold Int64.in_range, Int64.min_int, Int64.max_int. lia. }
  unfold Sequence, totalDuration, Lerp, F. cbn [fold_left fsDuration].
  rewrite Ha, Hb.
  destruct (rem_pos t (d + d) ltac:(lia) Ht) as [-> Hx]. fold x in Hx |- *.
  cbn [bind Sequence_walk fsDuration fsSignal]. rewrite Ha, Hb.
  destruct (Z.leb_spec 0 x); [|lia].
  destruct (Z.ltb_spec x d) as [Hlt|Hge]; cbn [andb]; [reflexivity|].
  destruct (Z.leb_spec d x); [|lia].
  destruct (Z.ltb_spec x (d + d)); [|lia]. cbn [andb].
  unfold At. rewrite !Mod_int by (unfold small; lia).
  replace (x mod d) with ((x - d) mod d); [reflexivity|].
  replace x with (x - d + 1 * d) at 2 by lia. symmetry. apply Z.mod_add. lia.
Qed.

Lemma Sequence_of_ramps_witness :
  Sequence [Lerp 0 1 8; Lerp 1 0 8] 42 =
  if 42 mod (8 + 8) <? 8 then At (fsSignal (Lerp 0 1 8)) (42 mod (8 + 8))
  else At (fsSignal (Lerp 1 0 8)) (42 mod (8 + 8) - 8).
Proof.
  apply (Sequence_of_ramps 0%float 1%float 1%float 0%float 8 42);
    vm_compute; congruence.
Defined.

(** The bound matters: beyond [2^53] ns the conversion of an offset to
    [float64] rounds, and the second ramp no longer restarts exactly. *)
Example Sequence_of_ramps_beyond_bound :
  let d := 2 ^ 53 + 2 in
  let x := (d + 1) mod (d + d) in
  (x <? d) = false /\
  Sequence [Lerp 0 1 d; Lerp 0 1 d] (d + 1) <>
  At (fsSignal (Lerp 0 1 d)) (x - d).
Proof. split; [reflexivity|]. vm_compute. discriminate. Qed.

(** With unequal durations the second ramp does not restart: it is called
    with the time since the start of the period. *)
Example Sequence_of_unequal_ramps :
  Sequence [Lerp 0 1 4; Lerp 0 1 8] 4 = Ok 0.5%float /\
  At (fsSignal (Lerp 0 1 8)) (4 - 4) = Ok 0%float.
Proof. split; reflexivity. Qed.

(** * Products and quotients of integers, and the tempo *)

(** The rounding of [binary_round_aux], which only shifts to the right,
    is exact as soon as the mantissa has 53 bits or more. *)
Lemma binary_round_aux_exact (sx : bool) (M : positive) (K c d : Z) :
  0 <= K -> Z.pos M = c * 2 ^ K -> 2 ^ (d - 1) <= c < 2 ^ d -> 0 < d <= 53 ->
  53 <= d + K ->
  binary_round_aux prec emax sx (Z.pos M) (- K) loc_Exact =
  S754_finite sx (Z.to_pos (c * 2 ^ (53 - d))) (d - 53).
Proof.
  intros HK HM Hc Hd Hbig.
  rewrite <- (binary_round_exact sx M K c d) by assumption.
  assert (Hc0 : 0 < c) by (pose proof (Z.pow_pos_nonneg 2 (d - 1)); lia).
  assert (HdM : Z.pos (digits2_pos M) = d + K).
  { apply digits_unique. rewrite HM.
    replace (d + K - 1) with (d - 1 + K) by lia. rewrite !Z.pow_add_r by lia.
    pose proof (Z.pow_pos_nonneg 2 K). nia. }
  unfold binary_round. rewrite HdM.
  replace (d + K + - K) with d by lia. rewrite fexp53 by lia.
  unfold shl_align. destruct (d - 53 - - K) eqn:Hk; try reflexivity. lia.
Qed.

Lemma sign_of_product a b :
  a <> 0 -> b <> 0 -> xorb (a <? 0) (b <? 0) = (a * b <? 0).
Proof.
  intros Ha Hb.
  destruct (Z.ltb_spec a 0), (Z.ltb_spec b 0), (Z.ltb_spec (a * b) 0);
    cbn [xorb]; try reflexivity; nia.
Qed.

(** The product of two integers is exact when it stays below [2^53]. *)
Lemma float64_mul_exact a b :
  a <> 0 -> b <> 0 -> small a -> small b -> small (a * b) ->
  (float64_of_int a * float64_of_int b)%float = float64_of_int (a * b).
Proof.
  intros Ha0 Hb0 Ha Hb Hab. apply Prim2SF_inj.
  rewrite mul_spec, !float64_of_int_exact by (assumption || nia).
  unfold small in *.
  destruct (int_digits (Z.abs a) ltac:(lia)) as [Hba Hda].
  destruct (int_digits (Z.abs b) ltac:(lia)) as [Hbb Hdb].
  destruct (int_digits (Z.abs (a * b)) ltac:(nia)) as [Hbc Hdc].
  destruct (int_mantissa (Z.abs a) ltac:(lia)) as [Hma _].
  destruct (int_mantissa (Z.abs b) ltac:(lia)) as [Hmb _].
  unfold SF64mul, int_SF. cbn [SFmul].
  set (da := Z.log2 (Z.abs a) + 1) in *. set (db := Z.log2 (Z.abs b) + 1) in *.
  set (dc := Z.log2 (Z.abs (a * b)) + 1) in *.
  rewrite sign_of_product by assumption.
  replace (da - 53 + (db - 53)) with (- (106 - da - db)) by lia.
  assert (Hdig : da + db - 2 < dc).
  { apply (Z.pow_lt_mono_r_iff 2); [lia|lia|].
    replace (da + db - 2) with (da - 1 + (db - 1)) by lia.
    rewrite Z.pow_add_r by lia. rewrite Z.abs_mul in Hbc. nia. }
  apply binary_round_aux_exact; try assumption; try lia.
  rewrite Pos2Z.inj_mul, Hma, Hmb, Z.abs_mul.
  replace (106 - da - db) with (53 - da + (53 - db)) by lia.
  rewrite Z.pow_add_r by lia. ring.
Qed.

Lemma new_location_zero nb : new_location nb 0 = loc_Exact.
Proof. unfold new_location. destruct (Z.even nb); reflexivity. Qed.

(** The quotient of two integers below [2^53] is exact when the division
    leaves no remainder. *)
Lemma float64_div_exact a b :
  a <> 0 -> b <> 0 -> small a -> small b -> a mod b = 0 ->
  (float64_of_int a / float64_of_int b)%float = float64_of_int (a / b).
Proof.
  intros Ha0 Hb0 Ha Hb Hmod.
  assert (Hq : a = b * (a / b)) by (apply Z.div_exact; assumption).
  set (c := a / b) in *.
  assert (Hc0 : c <> 0) by nia.
  assert (Habs : Z.abs a = Z.abs b * Z.abs c) by (rewrite Hq at 1; apply Z.abs_mul).
  unfold small in *.
  assert (Hc : Z.abs c < 2 ^ 53) by nia.
  apply Prim2SF_inj.
  rewrite div_spec, !float64_of_int_exact by (assumption || (unfold small; lia)).
  destruct (int_digits (Z.abs a) ltac:(lia)) as [Hba Hda].
  destruct (int_digits (Z.abs b) ltac:(lia)) as [Hbb Hdb].
  destruct (int_digits (Z.abs c) ltac:(lia)) as [Hbc Hdc].
  destruct (int_mantissa (Z.abs a) ltac:(lia)) as [Hma Hra].
  destruct (int_mantissa (Z.abs b) ltac:(lia)) as [Hmb Hrb].
  unfold SF64div, int_SF. cbn [SFdiv].
  set (da := Z.log2 (Z.abs a) + 1) in *. set (db := Z.log2 (Z.abs b) + 1) in *.
  set (dc := Z.log2 (Z.abs c) + 1) in *.
  set (ma := Z.to_pos (Z.abs a * 2 ^ (53 - da))) in *.
  set (mb := Z.to_pos (Z.abs b * 2 ^ (53 - db))) in *.
  set (K := 53 - da + db).
  assert (HK : 0 <= K) by (unfold K; lia).
  assert (HP : 0 < 2 ^ K) by (apply Z.pow_pos_nonneg; lia).
  assert (Hdig : da - 1 < db + dc).
  { apply (Z.pow_lt_mono_r_iff 2); [lia|lia|].
    rewrite Z.pow_add_r by lia. nia. }
  assert (Hcore : SFdiv_core_binary prec emax (Z.pos ma) (da - 53) (Z.pos mb) (db - 53)
                  = (Z.abs c * 2 ^ K, - K, loc_Exact)).
  { unfold SFdiv_core_binary. cbn [Zdigits2].
    rewrite (digits_unique ma 53), (digits_unique mb 53)
      by (rewrite ?Hma, ?Hmb; assumption).
    replace (53 + (da - 53) - (53 + (db - 53))) with (da - db) by lia.
    rewrite fexp53 by lia.
    replace (Z.min (da - db - 53) (da - 53 - (db - 53))) with (- K)
      by (unfold K; lia).
    replace (da - 53 - (db - 53) - - K) with 53 by (unfold K; lia).
    cbv iota. rewrite Z.shiftl_mul_pow2 by lia.
    assert (E1 : 2 ^ (53 - da) * 2 ^ 53 = 2 ^ (106 - da)).
    { rewrite <- Z.pow_add_r by lia. f_equal. lia. }
    assert (E2 : 2 ^ K * 2 ^ (53 - db) = 2 ^ (106 - da)).
    { rewrite <- Z.pow_add_r by lia. f_equal. unfold K. lia. }
    assert (Hm' : Z.pos ma * 2 ^ 53 = Z.abs c * 2 ^ K * Z.pos mb).
    { rewrite Hma, Hmb, Habs.
      transitivity (Z.abs b * Z.abs c * 2 ^ (106 - da));
        [rewrite <- E1|rewrite <- E2]; ring. }
    rewrite Hm', div_eucl_pair, Z.div_mul, Z.mod_mul by lia.
    now rewrite new_location_zero. }
  rewrite Hcore.
  replace (xorb (a <? 0) (b <? 0)) with (c <? 0).
  2:{ replace (a <? 0) with (b * c <? 0) by (f_equal; lia).
      rewrite <- sign_of_product by assumption.
      destruct (b <? 0), (c <? 0); reflexivity. }
  rewrite <- (Z2Pos.id (Z.abs c * 2 ^ K)) by nia.
  apply binary_round_aux_exact; try assumption; lia.
Qed.

(** X17. The tempo in whole numbers: for [v] beats per minute and [b]
    beats, when [b] minutes are a whole number of [v] parts (and below
    [2^53] ns), [T] is exactly [b * 60 s / v]. *)
Theorem T_exact (v b : Z) :
  0 < v -> 0 <= b -> small v -> small (b * Minute) -> (b * Minute) mod v = 0 ->
  T (float64_of_int v) (float64_of_int b) = b * Minute / v.
Proof.
  intros Hv Hb Hsv Hsb Hmod. unfold T.
  destruct (Z.eq_dec b 0) as [->|Hb0].
  - change (float64_of_int 0 * float64_of_int Minute)%float with 0%float.
    rewrite Z.mul_0_l, Z.div_0_l by lia.
    unfold Duration_of_float64. rewrite div_spec, float64_of_int_exact by (lia || assumption).
    reflexivity.
  - assert (HM : Minute = 60000000000) by reflexivity.
    rewrite float64_mul_exact; try assumption; try lia;
      try (unfold small in *; rewrite HM in *; lia).
    rewrite float64_div_exact; try assumption; try lia.
    apply Duration_of_float64_exact.
    assert (Hq : b * Minute = v * (b * Minute / v)) by (apply Z.div_exact; lia).
    unfold small in *. nia.
Qed.

Lemma T_exact_witness :
  T (float64_of_int 120) (float64_of_int 4) = 4 * Minute / 120.
Proof.
  apply (T_exact 120 4); try reflexivity; vm_compute; congruence.
Defined.
